(** * link-to-code-mobile: the URL store, the URL form and the carousel

    A shallow embedding of the three TypeScript units that hold the logic of
    the application:

    - [src/pages/QRCodeApp.tsx]           the URL store ([addUrl], [updateUrl],
                                          [deleteUrl], [setActiveUrl], [activeUrl]);
    - [src/components/UrlManagement.tsx]  the form ([normalizeUrl], [handleSubmit]);
    - [src/components/QRCodeGenerator.tsx] the carousel ([currentIndex],
                                          [navigateNext], [navigatePrevious],
                                          [navigateToIndex], [handleTouchEnd]).

    React state is modelled by explicit state passing: an updater
    [setUrls(prev => f(prev))] becomes the function [f] on the collection. *)

From Stdlib Require Import String Ascii.
From Stdlib Require Import List Bool Arith ZArith NArith Lia.
Import ListNotations.

Set Implicit Arguments.

(* ================================================================== *)
(** * JavaScript values used by the code *)
(* ================================================================== *)

Module Js.

(** A JavaScript string is a sequence of UTF-16 code units. *)
Definition code_unit := N.
Definition jsstring := list code_unit.

(** A string literal of the source (ASCII only). *)
Definition lit (s : string) : jsstring :=
  map N_of_ascii (list_ascii_of_string s).

(** [a === b] on strings. *)
Fixpoint str_eqb (a b : jsstring) : bool :=
  match a, b with
  | [], [] => true
  | x :: a', y :: b' => N.eqb x y && str_eqb a' b'
  | _, _ => false
  end.

(** WhiteSpace and LineTerminator code points of ECMAScript, the characters
    [String.prototype.trim] strips. All of them are in the basic plane, so
    the test is on single code units. *)
Definition is_space (c : code_unit) : bool :=
  (N.eqb c 0x0009 || N.eqb c 0x000A || N.eqb c 0x000B || N.eqb c 0x000C
   || N.eqb c 0x000D || N.eqb c 0x0020 || N.eqb c 0x00A0 || N.eqb c 0x1680
   || (N.leb 0x2000 c && N.leb c 0x200A)
   || N.eqb c 0x2028 || N.eqb c 0x2029 || N.eqb c 0x202F || N.eqb c 0x205F
   || N.eqb c 0x3000 || N.eqb c 0xFEFF)%N.

Fixpoint dropWhile (A : Type) (f : A -> bool) (l : list A) : list A :=
  match l with
  | [] => []
  | x :: l' => if f x then dropWhile f l' else l
  end.

Definition trimStart (s : jsstring) : jsstring := dropWhile is_space s.
Definition trimEnd (s : jsstring) : jsstring :=
  rev (dropWhile is_space (rev s)).

(** [s.trim()] *)
Definition trim (s : jsstring) : jsstring := trimEnd (trimStart s).

(** A string without white space at either end. *)
Definition trimmed (s : jsstring) : Prop := trim s = s.

(** [s.startsWith(p)] *)
Fixpoint startsWith (p s : jsstring) : bool :=
  match p, s with
  | [], _ => true
  | x :: p', y :: s' => N.eqb x y && startsWith p' s'
  | _ :: _, [] => false
  end.

(** Truthiness of a string: only the empty string is falsy. *)
Definition truthy_str (s : jsstring) : bool :=
  match s with [] => false | _ :: _ => true end.

(** Exceptions the modelled code could raise. *)
Inductive JsError : Type :=
| TypeError.

(** A computation that returns a value or throws. *)
Inductive js (A : Type) : Type :=
| Ret (a : A)
| Throw (e : JsError).
Arguments Ret {A} a.
Arguments Throw {A} e.

Definition bind (A B : Type) (m : js A) (k : A -> js B) : js B :=
  match m with
  | Ret a => k a
  | Throw e => Throw e
  end.

(** [arr[i]] for a number [i]: [undefined] (here [None]) out of range. *)
Definition index (A : Type) (arr : list A) (i : Z) : option A :=
  if (i <? 0)%Z then None else nth_error arr (Z.to_nat i).

(** [arr.findIndex(p)]: the first index whose element satisfies [p], or -1. *)
Fixpoint findIndex (A : Type) (p : A -> bool) (arr : list A) : Z :=
  match arr with
  | [] => (-1)%Z
  | x :: arr' =>
      if p x then 0%Z
      else let r := findIndex p arr' in
           if (r <? 0)%Z then (-1)%Z else (r + 1)%Z
  end.

End Js.

Import Js.

Unset Implicit Arguments.

Notation "x <- m ;; k" := (bind m (fun x => k))
  (at level 61, m at next level, right associativity).

(* ================================================================== *)
(** * src/types/url.ts *)
(* ================================================================== *)

Record SavedUrl : Type := mkSavedUrl {
  id : jsstring;
  url : jsstring;
  title : jsstring;
  createdAt : Z;          (* the Date, as milliseconds since the epoch *)
  isActive : bool
}.

Record UrlFormData : Type := mkUrlFormData {
  form_url : jsstring;
  form_title : jsstring
}.

(* ================================================================== *)
(** * src/pages/QRCodeApp.tsx: the URL store *)
(* ================================================================== *)

Module Store.

(** [{ ...u, isActive: b }] *)
Definition with_isActive (b : bool) (u : SavedUrl) : SavedUrl :=
  {| id := id u; url := url u; title := title u;
     createdAt := createdAt u; isActive := b |}.

(** [{ ...u, url: d.url, title: d.title }] *)
Definition with_form (d : UrlFormData) (u : SavedUrl) : SavedUrl :=
  {| id := id u; url := form_url d; title := form_title d;
     createdAt := createdAt u; isActive := isActive u |}.

(** Line 13: [urls.find(url => url.isActive) || null]. *)
Definition activeUrl (urls : list SavedUrl) : option SavedUrl :=
  find isActive urls.

(** Lines 20-26. [generateId()] and [new Date()] read the clock and the
    random generator: their results are the inputs [newId] and [now].
    [urls] is the collection the component was rendered with. *)
Definition newUrl (urls : list SavedUrl) (newId : jsstring) (now : Z)
           (urlData : UrlFormData) : SavedUrl :=
  {| id := newId;
     url := form_url urlData;
     title := form_title urlData;
     createdAt := now;
     isActive := Nat.eqb (length urls) 0 |}.

(** Lines 19-29: the updater [prev => prev.concat(newUrl)]. *)
Definition addUrl (urls : list SavedUrl) (newId : jsstring) (now : Z)
           (urlData : UrlFormData) (prev : list SavedUrl) : list SavedUrl :=
  prev ++ [newUrl urls newId now urlData].

(** Lines 31-37. *)
Definition updateUrl (i : jsstring) (urlData : UrlFormData)
           (prev : list SavedUrl) : list SavedUrl :=
  map (fun u => if str_eqb (id u) i then with_form urlData u else u) prev.

(** Lines 39-51. [wasActive] is [undefined] (here [None]) when no record
    has the id; [remaining[0].isActive = true] throws when [remaining[0]]
    is [undefined]. *)
Definition deleteUrl (i : jsstring) (prev : list SavedUrl)
  : js (list SavedUrl) :=
  let remaining := filter (fun u => negb (str_eqb (id u) i)) prev in
  let wasActive :=
    option_map isActive (find (fun u => str_eqb (id u) i) prev) in
  let truthy := match wasActive with Some b => b | None => false end in
  if truthy && Nat.ltb 0 (length remaining) then
    match remaining with
    | first :: rest => Ret (with_isActive true first :: rest)
    | [] => Throw TypeError
    end
  else Ret remaining.

(** Lines 53-58. *)
Definition setActiveUrl (i : jsstring) (prev : list SavedUrl)
  : list SavedUrl :=
  map (fun u => with_isActive (str_eqb (id u) i) u) prev.

(** The four commands of the store. The hook [useLocalStorage] that holds
    the collection is not among the sources; as the specification has it,
    it is state that starts from the stored collection (the empty one when
    nothing is stored) and applies each updater to the current collection.
    Every event runs to completion and the component is rendered again
    before the next one, so the rendered collection and the updater's
    [prev] are the same collection. *)
Inductive op : Type :=
| Add (newId : jsstring) (now : Z) (urlData : UrlFormData)
| Update (i : jsstring) (urlData : UrlFormData)
| Delete (i : jsstring)
| SetActive (i : jsstring).

Definition step (urls : list SavedUrl) (o : op) : js (list SavedUrl) :=
  match o with
  | Add newId now urlData => Ret (addUrl urls newId now urlData urls)
  | Update i urlData => Ret (updateUrl i urlData urls)
  | Delete i => deleteUrl i urls
  | SetActive i => Ret (setActiveUrl i urls)
  end.

Fixpoint run (urls : list SavedUrl) (ops : list op) : js (list SavedUrl) :=
  match ops with
  | [] => Ret urls
  | o :: ops' => urls' <- step urls o ;; run urls' ops'
  end.

(** Number of records with [isActive = true]. *)
Definition activeCount (urls : list SavedUrl) : nat :=
  length (filter isActive urls).

(** Invariants I1, I2 and I3 of the data model. *)
Definition I1 (urls : list SavedUrl) : Prop := activeCount urls <= 1.
Definition I2 (urls : list SavedUrl) : Prop :=
  urls <> [] -> activeCount urls = 1.
Definition I3 (urls : list SavedUrl) : Prop := NoDup (map id urls).

(** Number of records with id [i]. *)
Definition idCount (i : jsstring) (urls : list SavedUrl) : nat :=
  length (filter (fun u => str_eqb (id u) i) urls).

(** [hasId i urls]: some record of [urls] has id [i]. *)
Definition hasId (i : jsstring) (urls : list SavedUrl) : bool :=
  existsb (fun u => str_eqb (id u) i) urls.

(** The commands the user interface issues: [Add] with an id no record
    has yet, [SetActive] with an id taken from the collection. *)
Definition op_ok (urls : list SavedUrl) (o : op) : bool :=
  match o with
  | Add newId _ _ => negb (hasId newId urls)
  | SetActive i => hasId i urls
  | Update _ _ | Delete _ => true
  end.

Fixpoint ops_ok (urls : list SavedUrl) (ops : list op) : bool :=
  match ops with
  | [] => true
  | o :: ops' =>
      op_ok urls o &&
      match step urls o with
      | Ret urls' => ops_ok urls' ops'
      | Throw _ => false
      end
  end.

(** The fields of a record other than [isActive]. *)
Definition content (u : SavedUrl) : jsstring * jsstring * jsstring * Z :=
  (id u, url u, title u, createdAt u).

End Store.

(* ================================================================== *)
(** * src/components/UrlManagement.tsx: the form *)
(* ================================================================== *)

Module Form.

(** Lines 30-36. *)
Definition normalizeUrl (url : jsstring) : jsstring :=
  let trimmed := trim url in
  if startsWith (lit "http://") trimmed || startsWith (lit "https://") trimmed
  then trimmed
  else lit "https://" ++ trimmed.

(** The string begins with a recognized scheme. *)
Definition hasScheme (s : jsstring) : bool :=
  startsWith (lit "http://") s || startsWith (lit "https://") s.

(** The component's state (lines 25-27). *)
Record FormState : Type := mkFormState {
  isAdding : bool;
  editingId : option jsstring;       (* string | null *)
  formData : UrlFormData
}.

Record Toast : Type := mkToast {
  toast_title : string;
  toast_description : string;
  toast_destructive : bool
}.

Definition emptyForm : UrlFormData :=
  {| form_url := []; form_title := [] |}.

(** Lines 38-69, with [onAddUrl] and [onUpdateUrl] bound to the store's
    [addUrl] and [updateUrl] (QRCodeApp.tsx lines 69-75). The result is the
    collection, the component's state and the toast shown. *)
Definition handleSubmit (newId : jsstring) (now : Z)
           (urls : list SavedUrl) (st : FormState)
  : list SavedUrl * FormState * Toast :=
  let fd := formData st in
  if negb (truthy_str (trim (form_url fd)))
     || negb (truthy_str (trim (form_title fd)))
  then
    (urls, st,
     {| toast_title := "Error";
        toast_description := "Please fill in both URL and title";
        toast_destructive := true |})
  else
    let normalizedFormData :=
      {| form_url := normalizeUrl (form_url fd);
         form_title := form_title fd |} in
    let editing :=
      match editingId st with
      | Some e => truthy_str e
      | None => false
      end in
    let urls' :=
      match editingId st with
      | Some e =>
          if truthy_str e then Store.updateUrl e normalizedFormData urls
          else Store.addUrl urls newId now normalizedFormData urls
      | None => Store.addUrl urls newId now normalizedFormData urls
      end in
    let st' :=
      if editing
      then {| isAdding := isAdding st; editingId := None;
              formData := emptyForm |}
      else {| isAdding := false; editingId := editingId st;
              formData := emptyForm |} in
    (urls', st',
     {| toast_title := "Success";
        toast_description :=
          if editing then "URL updated successfully"
          else "URL added successfully";
        toast_destructive := false |}).

(** The toast of the validation failure. *)
Definition isValidationError (t : Toast) : bool :=
  toast_destructive t && String.eqb (toast_title t) "Error".

(** Lines 71-75. *)
Definition handleEdit (u : SavedUrl) (st : FormState) : FormState :=
  {| isAdding := false;
     editingId := Some (id u);
     formData := {| form_url := url u; form_title := title u |} |}.

(** Lines 77-81. *)
Definition handleCancel (st : FormState) : FormState :=
  {| isAdding := false; editingId := None; formData := emptyForm |}.

(** Lines 83-90, with [onDeleteUrl] bound to the store's [deleteUrl]. *)
Definition handleDelete (i : jsstring) (urls : list SavedUrl)
  : js (list SavedUrl * Toast) :=
  urls' <- Store.deleteUrl i urls ;;
  Ret (urls',
       {| toast_title := "Success";
          toast_description := "URL deleted successfully";
          toast_destructive := false |}).

(** Line 111: the form is rendered when [isAdding || editingId]. *)
Definition formOpen (st : FormState) : bool :=
  isAdding st
  || match editingId st with Some e => truthy_str e | None => false end.

(** Lines 103, 196 and 204: the Add, Edit and Delete buttons are disabled
    when [isAdding || editingId !== null]. *)
Definition busy (st : FormState) : bool :=
  isAdding st
  || match editingId st with Some _ => true | None => false end.

(** The component's initial state (lines 25-27). *)
Definition initialForm : FormState :=
  {| isAdding := false; editingId := None; formData := emptyForm |}.

(** What the form guarantees of a record it stored: an id that is not the
    empty string, a URL that begins with a scheme and has no white space
    at its ends, and a title that is not blank. *)
Definition stored_ok (u : SavedUrl) : Prop :=
  id u <> [] /\ hasScheme (url u) = true /\ trimmed (url u)
  /\ trim (title u) <> [].

End Form.

(* ================================================================== *)
(** * src/components/QRCodeGenerator.tsx: the carousel *)
(* ================================================================== *)

Module Carousel.

(** Line 23. *)
Definition currentIndex (urls : list SavedUrl) (activeUrl : option SavedUrl)
  : Z :=
  match activeUrl with
  | Some a => findIndex (fun u => str_eqb (id u) (id a)) urls
  | None => (-1)%Z
  end.

(** Line 24. *)
Definition hasMultipleUrls (urls : list SavedUrl) : bool :=
  Nat.leb 2 (length urls).

(** Line 27: minimum swipe distance, in pixels. *)
Definition minSwipeDistance : Z := 50.

(** What a navigation function does: return early, or call
    [onSetActiveUrl] with an id. *)
Inductive nav : Type :=
| Stay
| Activate (i : jsstring).

(** [onSetActiveUrl(urls[k].id)]: reading [.id] of [undefined] throws. *)
Definition activateAt (urls : list SavedUrl) (k : Z) : js nav :=
  match index urls k with
  | Some u => Ret (Activate (id u))
  | None => Throw TypeError
  end.

(** Lines 52-56. [%] is the remainder of the truncated division. *)
Definition navigateNext (urls : list SavedUrl) (activeUrl : option SavedUrl)
  : js nav :=
  let currentIndex := currentIndex urls activeUrl in
  if negb (hasMultipleUrls urls) || Z.eqb currentIndex (-1) then Ret Stay
  else
    let nextIndex := Z.rem (currentIndex + 1) (Z.of_nat (length urls)) in
    activateAt urls nextIndex.

(** Lines 58-62. *)
Definition navigatePrevious (urls : list SavedUrl)
           (activeUrl : option SavedUrl) : js nav :=
  let currentIndex := currentIndex urls activeUrl in
  if negb (hasMultipleUrls urls) || Z.eqb currentIndex (-1) then Ret Stay
  else
    let prevIndex :=
      if Z.eqb currentIndex 0 then (Z.of_nat (length urls) - 1)%Z
      else (currentIndex - 1)%Z in
    activateAt urls prevIndex.

(** Lines 64-68. *)
Definition navigateToIndex (urls : list SavedUrl) (k : Z) : js nav :=
  if Z.leb 0 k && Z.ltb k (Z.of_nat (length urls)) then activateAt urls k
  else Ret Stay.

(** The touch coordinates [touchStart] and [touchEnd] (lines 20-21) are
    [number | null], in whole pixels here. [!x] holds of [null] and of 0. *)
Definition falsy_num (x : option Z) : bool :=
  match x with
  | None => true
  | Some z => Z.eqb z 0
  end.

Definition num (x : option Z) : Z :=
  match x with Some z => z | None => 0%Z end.

(** Which navigation function [handleTouchEnd] calls. *)
Inductive call : Type :=
| CallNone
| CallNext
| CallPrevious.

(** Lines 38-50: the decision of [handleTouchEnd]. *)
Definition handleTouchEnd_call (touchStart touchEnd : option Z)
           (urls : list SavedUrl) : call :=
  if falsy_num touchStart || falsy_num touchEnd
     || negb (hasMultipleUrls urls)
  then CallNone
  else
    let distance := (num touchStart - num touchEnd)%Z in
    let isLeftSwipe := Z.ltb minSwipeDistance distance in
    let isRightSwipe := Z.ltb distance (- minSwipeDistance) in
    if isLeftSwipe then CallNext
    else if isRightSwipe then CallPrevious
    else CallNone.

(** Lines 38-50. *)
Definition handleTouchEnd (touchStart touchEnd : option Z)
           (urls : list SavedUrl) (activeUrl : option SavedUrl) : js nav :=
  match handleTouchEnd_call touchStart touchEnd urls with
  | CallNone => Ret Stay
  | CallNext => navigateNext urls activeUrl
  | CallPrevious => navigatePrevious urls activeUrl
  end.

(** The component on the store's collection: the props (lines 9-14) are
    [urls], the store's [activeUrl] (QRCodeApp.tsx line 13) and, for
    [onSetActiveUrl], the store's [setActiveUrl], as UrlManagement gets it
    (QRCodeApp.tsx line 74). *)
Definition dispatch (urls : list SavedUrl) (r : js nav)
  : js (list SavedUrl) :=
  n <- r ;;
  match n with
  | Stay => Ret urls
  | Activate i => Ret (Store.setActiveUrl i urls)
  end.

Definition next (urls : list SavedUrl) : js (list SavedUrl) :=
  dispatch urls (navigateNext urls (Store.activeUrl urls)).

Definition previous (urls : list SavedUrl) : js (list SavedUrl) :=
  dispatch urls (navigatePrevious urls (Store.activeUrl urls)).

Definition goTo (urls : list SavedUrl) (k : Z) : js (list SavedUrl) :=
  dispatch urls (navigateToIndex urls k).

(** The net displacement of a gesture along the horizontal axis, as
    [handleTouchEnd] measures it. *)
Definition displacement (touchStart touchEnd : Z) : Z :=
  (touchStart - touchEnd)%Z.

(** [activateIndex urls k]: the collection after [onSetActiveUrl(urls[k].id)]. *)
Definition activateIndex (urls : list SavedUrl) (k : nat) : list SavedUrl :=
  match nth_error urls k with
  | Some u => Store.setActiveUrl (id u) urls
  | None => urls
  end.

(** [n] times [next()]. *)
Fixpoint nextTimes (n : nat) (urls : list SavedUrl) : js (list SavedUrl) :=
  match n with
  | O => Ret urls
  | S n' => urls' <- next urls ;; nextTimes n' urls'
  end.

(** The touch coordinates the component keeps (lines 20-21). *)
Record TouchState : Type := mkTouchState {
  ts_start : option Z;
  ts_end : option Z
}.

Definition initialTouch : TouchState :=
  {| ts_start := None; ts_end := None |}.

(** Lines 29-32; [x] is [e.targetTouches[0].clientX]. *)
Definition handleTouchStart (x : Z) (st : TouchState) : TouchState :=
  {| ts_start := Some x; ts_end := None |}.

(** Lines 34-36. *)
Definition handleTouchMove (x : Z) (st : TouchState) : TouchState :=
  {| ts_start := ts_start st; ts_end := Some x |}.

(** The [touchmove] events of one gesture, in order. *)
Fixpoint moves (xs : list Z) (st : TouchState) : TouchState :=
  match xs with
  | [] => st
  | x :: xs' => moves xs' (handleTouchMove x st)
  end.

(** [handleTouchEnd] on the kept coordinates, applied to the collection. *)
Definition swipe (st : TouchState) (urls : list SavedUrl)
  : js (list SavedUrl) :=
  dispatch urls
    (handleTouchEnd (ts_start st) (ts_end st) urls (Store.activeUrl urls)).

(** What a navigation function returns: nothing to do, or the id of a
    record of the collection. *)
Definition presentTarget (urls : list SavedUrl) (r : js nav) : Prop :=
  r = Ret Stay \/ exists u, In u urls /\ r = Ret (Activate (id u)).

(** [onlyFlags urls r]: the navigation [r] returns a collection that
    differs from [urls] in [isActive] at most and is well formed when
    [urls] is. *)
Definition onlyFlags (urls : list SavedUrl) (r : js (list SavedUrl)) : Prop :=
  exists urls',
    r = Ret urls'
    /\ map Store.content urls' = map Store.content urls
    /\ (Store.I3 urls -> Store.I2 urls ->
        Store.I1 urls' /\ Store.I2 urls' /\ Store.I3 urls').

End Carousel.

(* ================================================================== *)
(** * The management page: UrlManagement.tsx on the store of QRCodeApp.tsx *)
(* ================================================================== *)

Module App.

(** The collection (QRCodeApp.tsx line 10) and the state of the form. *)
Record AppState : Type := mkAppState {
  app_urls : list SavedUrl;
  app_form : Form.FormState
}.

Definition init : AppState :=
  {| app_urls := []; app_form := Form.initialForm |}.

(** What the user can do on the page. A button of a row is addressed by
    the position of the row; [Submit] carries what [generateId()] and
    [new Date()] return if the store's [addUrl] runs. *)
Inductive event : Type :=
| ClickAdd                               (* lines 100-103 *)
| ChangeTitle (v : jsstring)             (* line 123 *)
| ChangeUrl (v : jsstring)               (* line 133 *)
| Submit (newId : jsstring) (now : Z)    (* line 117 *)
| ClickCancel                            (* line 142 *)
| ClickSetActive (k : nat)               (* line 167 *)
| ClickEdit (k : nat)                    (* lines 195-196 *)
| ClickDelete (k : nat).                 (* lines 203-204 *)

(** One event. A control that is not rendered or is disabled does
    nothing. *)
Definition handle (s : AppState) (e : event) : js AppState :=
  let urls := app_urls s in
  let st := app_form s in
  match e with
  | ClickAdd =>
      if Form.busy st then Ret s
      else Ret {| app_urls := urls;
                  app_form := {| Form.isAdding := true;
                                 Form.editingId := Form.editingId st;
                                 Form.formData := Form.formData st |} |}
  | ChangeTitle v =>
      if Form.formOpen st
      then Ret {| app_urls := urls;
                  app_form :=
                    {| Form.isAdding := Form.isAdding st;
                       Form.editingId := Form.editingId st;
                       Form.formData :=
                         {| form_url := form_url (Form.formData st);
                            form_title := v |} |} |}
      else Ret s
  | ChangeUrl v =>
      if Form.formOpen st
      then Ret {| app_urls := urls;
                  app_form :=
                    {| Form.isAdding := Form.isAdding st;
                       Form.editingId := Form.editingId st;
                       Form.formData :=
                         {| form_url := v;
                            form_title := form_title (Form.formData st) |} |} |}
      else Ret s
  | Submit newId now =>
      if Form.formOpen st
      then let '(urls', st', _) := Form.handleSubmit newId now urls st in
           Ret {| app_urls := urls'; app_form := st' |}
      else Ret s
  | ClickCancel =>
      if Form.formOpen st
      then Ret {| app_urls := urls; app_form := Form.handleCancel st |}
      else Ret s
  | ClickSetActive k =>
      match nth_error urls k with
      | Some u => Ret {| app_urls := Store.setActiveUrl (id u) urls;
                         app_form := st |}
      | None => Ret s
      end
  | ClickEdit k =>
      if Form.busy st then Ret s
      else match nth_error urls k with
           | Some u => Ret {| app_urls := urls;
                              app_form := Form.handleEdit u st |}
           | None => Ret s
           end
  | ClickDelete k =>
      if Form.busy st then Ret s
      else match nth_error urls k with
           | Some u =>
               r <- Form.handleDelete (id u) urls ;;
               Ret {| app_urls := fst r; app_form := st |}
           | None => Ret s
           end
  end.

Fixpoint run (s : AppState) (es : list event) : js AppState :=
  match es with
  | [] => Ret s
  | e :: es' => s' <- handle s e ;; run s' es'
  end.

(** [generateId()] returns a string that is not empty and that no record
    of the collection has. *)
Definition event_ok (s : AppState) (e : event) : bool :=
  match e with
  | Submit newId _ =>
      truthy_str newId && negb (Store.hasId newId (app_urls s))
  | _ => true
  end.

Fixpoint events_ok (s : AppState) (es : list event) : bool :=
  match es with
  | [] => true
  | e :: es' =>
      event_ok s e &&
      match handle s e with
      | Ret s' => events_ok s' es'
      | Throw _ => false
      end
  end.

(** What the page keeps true of its state: unique ids, one active record
    in a non-empty collection, well-formed records, and a form that edits
    a record of the collection. *)
Definition Inv (s : AppState) : Prop :=
  Store.I3 (app_urls s) /\ Store.I2 (app_urls s)
  /\ Forall Form.stored_ok (app_urls s)
  /\ (forall e, Form.editingId (app_form s) = Some e ->
      Store.hasId e (app_urls s) = true /\ e <> []).

End App.

(* ================================================================== *)
(** * Sample data *)
(* ================================================================== *)

Module Sample.

Definition form (u t : string) : UrlFormData :=
  {| form_url := lit u; form_title := lit t |}.

Definition saved (i u t : string) (c : Z) (a : bool) : SavedUrl :=
  {| id := lit i; url := lit u; title := lit t;
     createdAt := c; isActive := a |}.

Definition A : SavedUrl := saved "a" "https://a.example" "A" 1 true.
Definition B : SavedUrl := saved "b" "https://b.example" "B" 2 false.
Definition C : SavedUrl := saved "c" "https://c.example" "C" 3 false.

(** A session of the store. *)
Definition ops : list Store.op :=
  [Store.Add (lit "a") 1 (form "https://a.example" "A");
   Store.Add (lit "b") 2 (form "https://b.example" "B");
   Store.SetActive (lit "b");
   Store.Update (lit "a") (form "https://a2.example" "A2");
   Store.Delete (lit "b");
   Store.Delete (lit "zzz")].

(** A session on the management page. *)
Definition events : list App.event :=
  [App.ClickAdd;
   App.ChangeTitle (lit "A"); App.ChangeUrl (lit " a.example ");
   App.Submit (lit "a") 1;
   App.ClickAdd;
   App.ChangeTitle (lit "B"); App.ChangeUrl (lit "http://b.example");
   App.Submit (lit "b") 2;
   App.ClickSetActive 1;
   App.ClickEdit 0; App.ChangeTitle (lit "   ");
   App.Submit (lit "x") 3;
   App.ChangeTitle (lit "A2");
   App.Submit (lit "y") 4;
   App.ClickDelete 1].

End Sample.

(* ================================================================== *)
(** * Strings *)
(* ================================================================== *)

Section Strings.

Lemma str_eqb_eq (a b : jsstring) : str_eqb a b = true <-> a = b.
Proof.
  revert b; induction a as [|x a IH]; intros [|y b]; simpl;
    try (split; (reflexivity || discriminate)).
  rewrite andb_true_iff, N.eqb_eq, IH.
  split; [intros [-> ->]; reflexivity | intros [= -> ->]; auto].
Qed.

Lemma str_eqb_refl (a : jsstring) : str_eqb a a = true.
Proof. apply str_eqb_eq; reflexivity. Qed.

Lemma str_eqb_neq (a b : jsstring) : str_eqb a b = false <-> a <> b.
Proof.
  rewrite <- str_eqb_eq. destruct (str_eqb a b); split; congruence.
Qed.


Variable A : Type.
Variable f : A -> bool.

Lemma dropWhile_head (l l' : list A) (x : A) :
  dropWhile f l = x :: l' -> f x = false.
Proof.
  induction l as [|y l IH]; simpl; [discriminate|].
  destruct (f y) eqn:E; [exact IH|].
  intros [= <- _]; exact E.
Qed.

Lemma dropWhile_stop (l : list A) (x : A) :
  f x = false -> dropWhile f (x :: l) = x :: l.
Proof. intros E; simpl; rewrite E; reflexivity. Qed.

Lemma dropWhile_idem (l : list A) :
  dropWhile f (dropWhile f l) = dropWhile f l.
Proof.
  destruct (dropWhile f l) as [|x l'] eqn:E; [reflexivity|].
  apply dropWhile_stop, (dropWhile_head _ _ _ E).
Qed.

Lemma dropWhile_app_stop (l m : list A) (x : A) :
  f x = false -> dropWhile f (l ++ x :: m) = dropWhile f l ++ x :: m.
Proof.
  intros E; induction l as [|y l IH]; simpl.
  - rewrite E; reflexivity.
  - destruct (f y); [exact IH | reflexivity].
Qed.


End Strings.

Section Trim.

Lemma trimEnd_idem (s : jsstring) : trimEnd (trimEnd s) = trimEnd s.
Proof.
  unfold trimEnd; rewrite rev_involutive, dropWhile_idem; reflexivity.
Qed.

Lemma trimStart_trimEnd (s : jsstring) :
  trimStart s = s -> trimStart (trimEnd s) = trimEnd s.
Proof.
  unfold trimStart, trimEnd; destruct s as [|x s]; [reflexivity|].
  intros E; pose proof (dropWhile_head _ is_space _ _ _ E) as Hx.
  simpl rev; rewrite dropWhile_app_stop by exact Hx.
  rewrite rev_app_distr; simpl; rewrite Hx; reflexivity.
Qed.

Lemma trim_ends (s : jsstring) :
  trimStart (trim s) = trim s /\ trimEnd (trim s) = trim s.
Proof.
  unfold trim; split.
  - apply trimStart_trimEnd; unfold trimStart; apply dropWhile_idem.
  - apply trimEnd_idem.
Qed.

Lemma trim_idem (s : jsstring) : trim (trim s) = trim s.
Proof.
  destruct (trim_ends s) as [Hs He].
  unfold trim at 1; rewrite Hs; exact He.
Qed.

Lemma trimmed_ends (s : jsstring) :
  trimStart s = s -> trimEnd s = s -> trimmed s.
Proof. intros Hs He; unfold trimmed, trim; rewrite Hs; exact He. Qed.

(** Prefixing a string that does not end in white space with a prefix
    that has no white space at its ends yields a trimmed string. *)
Lemma trim_prefixed (p t : jsstring) (x y : code_unit) (p' p'' : jsstring) :
  p = x :: p' -> rev p = y :: p'' ->
  is_space x = false -> is_space y = false ->
  trimEnd t = t -> trim (p ++ t) = p ++ t.
Proof.
  intros Hp Hr Hx Hy Ht; apply trimmed_ends.
  - subst p; unfold trimStart; simpl; rewrite Hx; reflexivity.
  - unfold trimEnd; rewrite rev_app_distr, Hr.
    rewrite dropWhile_app_stop by exact Hy.
    unfold trimEnd in Ht.
    assert (dropWhile is_space (rev t) = rev t) as ->
      by (rewrite <- Ht at 2; rewrite rev_involutive; reflexivity).
    rewrite <- Hr, <- rev_app_distr; apply rev_involutive.
Qed.

Lemma startsWith_app (p t : jsstring) : startsWith p (p ++ t) = true.
Proof.
  induction p as [|x p IH]; simpl; [reflexivity|].
  rewrite N.eqb_refl; exact IH.
Qed.

Lemma startsWith_split (p s : jsstring) :
  startsWith p s = true -> exists t, s = p ++ t.
Proof.
  revert s; induction p as [|x p IH]; intros s; simpl.
  - exists s; reflexivity.
  - destruct s as [|y s]; [discriminate|].
    rewrite andb_true_iff, N.eqb_eq; intros [-> H].
    destruct (IH _ H) as [t ->]; exists t; reflexivity.
Qed.

End Trim.

(* ================================================================== *)
(** * The form: normalization and validation *)
(* ================================================================== *)

Section Normalization.

Import Form.

Lemma normalizeUrl_cases (s : jsstring) :
  normalizeUrl s =
  if hasScheme (trim s) then trim s else lit "https://" ++ trim s.
Proof. reflexivity. Qed.

Lemma hasScheme_trim (s : jsstring) :
  hasScheme s = true -> hasScheme (trim s) = true.
Proof.
  unfold hasScheme; rewrite !orb_true_iff.
  assert (forall p x p' y p'', p = x :: p' -> rev p = y :: p'' ->
            is_space x = false -> is_space y = false ->
            startsWith p s = true -> startsWith p (trim s) = true) as H.
  { intros p x p' y p'' Hp Hr Hx Hy Hs.
    destruct (startsWith_split _ _ Hs) as [t ->].
    unfold trim at 1.
    assert (trimStart (p ++ t) = p ++ t) as ->
      by (subst p; unfold trimStart; simpl; rewrite Hx; reflexivity).
    unfold trimEnd; rewrite rev_app_distr, Hr.
    rewrite dropWhile_app_stop by exact Hy.
    rewrite rev_app_distr, <- Hr, rev_involutive.
    apply startsWith_app. }
  intros [Hs | Hs]; [left | right];
    eapply H; try exact Hs; reflexivity.
Qed.

Lemma normalizeUrl_scheme (s : jsstring) :
  hasScheme s = true -> normalizeUrl s = trim s.
Proof.
  intros Hs; rewrite normalizeUrl_cases, (hasScheme_trim _ Hs); reflexivity.
Qed.

Lemma normalizeUrl_fixed (s : jsstring) :
  normalizeUrl (normalizeUrl s) = normalizeUrl s.
Proof.
  rewrite (normalizeUrl_cases s).
  destruct (hasScheme (trim s)) eqn:Hs.
  - rewrite normalizeUrl_cases, trim_idem, Hs; reflexivity.
  - assert (trim (lit "https://" ++ trim s) = lit "https://" ++ trim s) as E.
    { eapply trim_prefixed; try reflexivity. apply trim_ends. }
    rewrite normalizeUrl_cases, E.
    assert (hasScheme (lit "https://" ++ trim s) = true) as ->; [|reflexivity].
    unfold hasScheme; rewrite (startsWith_app (lit "https://"));
      apply orb_true_r.
Qed.

(** C6, as the specification states it, fails: a string that begins with
    a scheme and ends in white space is changed by normalization. *)
Lemma normalizeUrl_scheme_not_noop :
  hasScheme (lit "https://example.com ") = true
  /\ normalizeUrl (lit "https://example.com ") <> lit "https://example.com ".
Proof. split; [reflexivity | vm_compute; discriminate]. Qed.

(** C6 (amended): on a string that begins with [http://] or [https://]
    normalization only trims (so it is a no-op when the string has no
    white space at its ends); ["example.com"] becomes
    ["https://example.com"]; and normalizing twice is normalizing once. *)
Theorem normalizeUrl_idempotent (s : jsstring) :
  (hasScheme s = true -> normalizeUrl s = trim s)
  /\ (hasScheme s = true -> trimmed s -> normalizeUrl s = s)
  /\ normalizeUrl (lit "example.com") = lit "https://example.com"
  /\ normalizeUrl (lit "https://example.com") = lit "https://example.com"
  /\ normalizeUrl (normalizeUrl s) = normalizeUrl s.
Proof.
  split; [apply normalizeUrl_scheme|].
  split; [intros Hs Ht; rewrite normalizeUrl_scheme by exact Hs; exact Ht|].
  split; [reflexivity|].
  split; [reflexivity|].
  apply normalizeUrl_fixed.
Qed.

Lemma normalizeUrl_idempotent_witness :
  hasScheme (lit "http://a.b/c") = true
  /\ trimmed (lit "http://a.b/c")
  /\ normalizeUrl (lit "http://a.b/c") = lit "http://a.b/c"
  /\ normalizeUrl (lit "http://a.b/c ") = trim (lit "http://a.b/c ").
Proof.
  split; [reflexivity|].
  split; [reflexivity|].
  split.
  - apply (proj1 (proj2 (normalizeUrl_idempotent (lit "http://a.b/c"))));
      reflexivity.
  - apply (proj1 (normalizeUrl_idempotent (lit "http://a.b/c ")));
      reflexivity.
Defined.

End Normalization.

(* ================================================================== *)
(** * The store: auxiliary facts *)
(* ================================================================== *)

Section StoreFacts.

Import Store.

Lemma hasId_in (i : jsstring) (l : list SavedUrl) :
  hasId i l = true <-> In i (map id l).
Proof.
  unfold hasId; rewrite existsb_exists, in_map_iff.
  split; intros [u [H1 H2]]; exists u.
  - apply str_eqb_eq in H2; auto.
  - split; [exact H2 | apply str_eqb_eq; exact H1].
Qed.

Lemma hasId_false (i : jsstring) (l : list SavedUrl) :
  hasId i l = false <-> forall u, In u l -> str_eqb (id u) i = false.
Proof.
  unfold hasId; induction l as [|x l IH]; simpl.
  - split; [intros _ u [] | reflexivity].
  - rewrite orb_false_iff, IH; split.
    + intros [Hx Hl] u [<- | Hu]; auto.
    + intros H; split; [apply H; left; reflexivity|].
      intros u Hu; apply H; right; exact Hu.
Qed.

(** A record with id [i] splits the collection at its first occurrence. *)
Lemma hasId_split (i : jsstring) (l : list SavedUrl) :
  hasId i l = true ->
  exists l1 r l2, l = l1 ++ r :: l2 /\ id r = i /\ hasId i l1 = false.
Proof.
  induction l as [|x l IH]; simpl; [discriminate|].
  destruct (str_eqb (id x) i) eqn:E; simpl.
  - intros _; exists [], x, l; repeat split.
    apply str_eqb_eq; exact E.
  - intros H; destruct (IH H) as (l1 & r & l2 & -> & Hr & H1).
    exists (x :: l1), r, l2; repeat split; auto.
    simpl; rewrite E; exact H1.
Qed.

(** Under I3 the record with id [i] is the only one. *)
Lemma I3_split (i : jsstring) (l : list SavedUrl) :
  I3 l -> hasId i l = true ->
  exists l1 r l2,
    l = l1 ++ r :: l2 /\ id r = i
    /\ hasId i l1 = false /\ hasId i l2 = false.
Proof.
  intros HI H; destruct (hasId_split _ _ H) as (l1 & r & l2 & -> & Hr & H1).
  exists l1, r, l2; repeat split; auto.
  unfold I3 in HI; rewrite map_app in HI; simpl in HI.
  apply NoDup_remove_2 in HI.
  destruct (hasId i l2) eqn:E; [|reflexivity].
  exfalso; apply HI, in_or_app; right.
  rewrite Hr; apply hasId_in; exact E.
Qed.

(** The same splitting when exactly one record has id [i]. *)
Lemma idCount_split (i : jsstring) (l : list SavedUrl) :
  idCount i l = 1 ->
  exists l1 r l2,
    l = l1 ++ r :: l2 /\ id r = i
    /\ hasId i l1 = false /\ hasId i l2 = false.
Proof.
  unfold idCount; induction l as [|x l IH]; simpl; [discriminate|].
  destruct (str_eqb (id x) i) eqn:E; simpl.
  - intros H; exists [], x, l; repeat split.
    + apply str_eqb_eq; exact E.
    + injection H as H; apply length_zero_iff_nil in H.
      apply hasId_false; intros u Hu.
      destruct (str_eqb (id u) i) eqn:Eu; [|reflexivity].
      assert (In u (filter (fun u => str_eqb (id u) i) l)) as Hin
        by (apply filter_In; auto).
      rewrite H in Hin; destruct Hin.
  - intros H; destruct (IH H) as (l1 & r & l2 & -> & Hr & H1 & H2).
    exists (x :: l1), r, l2; repeat split; auto.
    simpl; rewrite E; exact H1.
Qed.

Lemma filter_absent (i : jsstring) (l : list SavedUrl) :
  hasId i l = false -> filter (fun u => negb (str_eqb (id u) i)) l = l.
Proof.
  rewrite hasId_false; induction l as [|x l IH]; intros H; simpl;
    [reflexivity|].
  rewrite (H x (or_introl eq_refl)); simpl; f_equal.
  apply IH; intros u Hu; apply H; right; exact Hu.
Qed.

Lemma find_absent (i : jsstring) (l : list SavedUrl) :
  hasId i l = false -> find (fun u => str_eqb (id u) i) l = None.
Proof.
  rewrite hasId_false; induction l as [|x l IH]; intros H; simpl;
    [reflexivity|].
  rewrite (H x (or_introl eq_refl)).
  apply IH; intros u Hu; apply H; right; exact Hu.
Qed.

Lemma find_app_absent (A : Type) (p : A -> bool) (l1 l2 : list A) :
  find p l1 = None -> find p (l1 ++ l2) = find p l2.
Proof.
  induction l1 as [|x l1 IH]; simpl; [reflexivity|].
  destruct (p x); [discriminate | exact IH].
Qed.

Lemma updateUrl_absent (i : jsstring) (d : UrlFormData)
      (l : list SavedUrl) :
  hasId i l = false -> updateUrl i d l = l.
Proof.
  rewrite hasId_false; unfold updateUrl; induction l as [|x l IH];
    intros H; simpl; [reflexivity|].
  rewrite (H x (or_introl eq_refl)); f_equal.
  apply IH; intros u Hu; apply H; right; exact Hu.
Qed.

Lemma setActiveUrl_absent (i : jsstring) (l : list SavedUrl) :
  hasId i l = false -> setActiveUrl i l = map (with_isActive false) l.
Proof.
  rewrite hasId_false; unfold setActiveUrl; intros H.
  apply map_ext_in; intros u Hu; rewrite (H u Hu); reflexivity.
Qed.

Lemma activeCount_app (l1 l2 : list SavedUrl) :
  activeCount (l1 ++ l2) = activeCount l1 + activeCount l2.
Proof. unfold activeCount; rewrite filter_app, length_app; reflexivity. Qed.

Lemma activeCount_cons (u : SavedUrl) (l : list SavedUrl) :
  activeCount (u :: l) = (if isActive u then 1 else 0) + activeCount l.
Proof. unfold activeCount; simpl; destruct (isActive u); reflexivity. Qed.

Lemma activeCount_inactive (l : list SavedUrl) :
  activeCount (map (with_isActive false) l) = 0.
Proof.
  induction l as [|x l IH]; [reflexivity|].
  simpl map; rewrite activeCount_cons; simpl; exact IH.
Qed.

Lemma activeCount_zero (l : list SavedUrl) :
  activeCount l = 0 <-> forall u, In u l -> isActive u = false.
Proof.
  induction l as [|x l IH].
  - split; [intros _ u [] | reflexivity].
  - rewrite activeCount_cons; split.
    + intros H u [<- | Hu].
      * destruct (isActive x); [discriminate | reflexivity].
      * apply IH; [destruct (isActive x); [discriminate | exact H] | exact Hu].
    + intros H; rewrite (H x (or_introl eq_refl)); simpl.
      apply IH; intros u Hu; apply H; right; exact Hu.
Qed.

Lemma find_inactive (l : list SavedUrl) :
  activeCount l = 0 -> find isActive l = None.
Proof.
  rewrite activeCount_zero; induction l as [|x l IH]; intros H; simpl;
    [reflexivity|].
  rewrite (H x (or_introl eq_refl)).
  apply IH; intros u Hu; apply H; right; exact Hu.
Qed.

Lemma ids_updateUrl (i : jsstring) (d : UrlFormData) (l : list SavedUrl) :
  map id (updateUrl i d l) = map id l.
Proof.
  unfold updateUrl; rewrite map_map; apply map_ext; intros u.
  destruct (str_eqb (id u) i); reflexivity.
Qed.

Lemma ids_setActiveUrl (i : jsstring) (l : list SavedUrl) :
  map id (setActiveUrl i l) = map id l.
Proof. unfold setActiveUrl; rewrite map_map; reflexivity. Qed.

Lemma activeCount_updateUrl (i : jsstring) (d : UrlFormData)
      (l : list SavedUrl) :
  activeCount (updateUrl i d l) = activeCount l.
Proof.
  induction l as [|x l IH]; [reflexivity|].
  unfold updateUrl in *; simpl map; rewrite !activeCount_cons, IH.
  destruct (str_eqb (id x) i); reflexivity.
Qed.

(** The collection after [setActiveUrl], once split at the record. *)
Lemma setActiveUrl_split (i : jsstring) (l1 l2 : list SavedUrl)
      (r : SavedUrl) :
  id r = i -> hasId i l1 = false -> hasId i l2 = false ->
  setActiveUrl i (l1 ++ r :: l2) =
  map (with_isActive false) l1 ++ with_isActive true r
      :: map (with_isActive false) l2.
Proof.
  intros Hr H1 H2.
  rewrite <- (setActiveUrl_absent _ _ H1), <- (setActiveUrl_absent _ _ H2).
  unfold setActiveUrl; rewrite map_app; simpl.
  rewrite Hr, str_eqb_refl; reflexivity.
Qed.

(** The outcome of [deleteUrl], once split at the record. *)
Lemma deleteUrl_split (i : jsstring) (l1 l2 : list SavedUrl)
      (r : SavedUrl) :
  id r = i -> hasId i l1 = false -> hasId i l2 = false ->
  deleteUrl i (l1 ++ r :: l2) =
  match isActive r, l1 ++ l2 with
  | true, first :: rest => Ret (with_isActive true first :: rest)
  | _, remaining => Ret remaining
  end.
Proof.
  intros Hr H1 H2; unfold deleteUrl.
  rewrite filter_app; simpl.
  rewrite (filter_absent _ _ H1), (filter_absent _ _ H2).
  rewrite (find_app_absent _ _ _ _ (find_absent _ _ H1)); simpl.
  rewrite Hr, str_eqb_refl; simpl.
  destruct (isActive r); simpl; [|reflexivity].
  destruct (l1 ++ l2); reflexivity.
Qed.

Lemma deleteUrl_absent (i : jsstring) (l : list SavedUrl) :
  hasId i l = false -> deleteUrl i l = Ret l.
Proof.
  intros H; unfold deleteUrl.
  rewrite (filter_absent _ _ H), (find_absent _ _ H); reflexivity.
Qed.

End StoreFacts.

(* ================================================================== *)
(** * The store: the single-active invariant *)
(* ================================================================== *)

Section StoreInvariant.

Import Store.

Lemma I2_I1 (urls : list SavedUrl) : I2 urls -> I1 urls.
Proof.
  unfold I1, I2; destruct urls as [|u l]; intros H.
  - unfold activeCount; simpl; lia.
  - rewrite H by discriminate; lia.
Qed.

Lemma addUrl_inv (urls : list SavedUrl) (newId : jsstring) (now : Z)
      (d : UrlFormData) :
  I3 urls -> I2 urls -> hasId newId urls = false ->
  I3 (addUrl urls newId now d urls) /\ I2 (addUrl urls newId now d urls).
Proof.
  intros H3 H2 Hn; unfold addUrl; split.
  - unfold I3; rewrite map_app; apply NoDup_app; auto.
    + simpl; constructor; [intros [] | constructor].
    + simpl; intros a Ha [<- | []].
      apply hasId_in in Ha; congruence.
  - intros _; rewrite activeCount_app, activeCount_cons; simpl.
    destruct urls as [|u l]; [reflexivity|].
    simpl; rewrite H2 by discriminate; reflexivity.
Qed.

Lemma updateUrl_inv (urls : list SavedUrl) (i : jsstring)
      (d : UrlFormData) :
  I3 urls -> I2 urls -> I3 (updateUrl i d urls) /\ I2 (updateUrl i d urls).
Proof.
  intros H3 H2; split.
  - unfold I3; rewrite ids_updateUrl; exact H3.
  - intros Hne; rewrite activeCount_updateUrl; apply H2.
    intros ->; apply Hne; reflexivity.
Qed.

Lemma setActiveUrl_inv (urls : list SavedUrl) (i : jsstring) :
  I3 urls -> hasId i urls = true ->
  I3 (setActiveUrl i urls) /\ I2 (setActiveUrl i urls).
Proof.
  intros H3 Hi; split.
  - unfold I3; rewrite ids_setActiveUrl; exact H3.
  - intros _.
    destruct (I3_split _ _ H3 Hi) as (l1 & r & l2 & -> & Hr & H1 & H2).
    rewrite (setActiveUrl_split _ _ _ _ Hr H1 H2).
    rewrite activeCount_app, activeCount_cons, !activeCount_inactive.
    reflexivity.
Qed.

Lemma deleteUrl_inv (urls : list SavedUrl) (i : jsstring) :
  I3 urls -> I2 urls ->
  exists urls', deleteUrl i urls = Ret urls' /\ I3 urls' /\ I2 urls'.
Proof.
  intros H3 H2; destruct (hasId i urls) eqn:Hi.
  2:{ exists urls; rewrite (deleteUrl_absent _ _ Hi); auto. }
  destruct (I3_split _ _ H3 Hi) as (l1 & r & l2 & -> & Hr & Hl1 & Hl2).
  rewrite (deleteUrl_split _ _ _ _ Hr Hl1 Hl2).
  assert (I3 (l1 ++ l2)) as H3'.
  { unfold I3 in *; rewrite map_app in *; simpl in H3.
    apply NoDup_remove_1 in H3; exact H3. }
  assert (activeCount l1 + (if isActive r then 1 else 0) + activeCount l2
          = 1) as Hc.
  { rewrite <- Nat.add_assoc, <- activeCount_cons, <- activeCount_app.
    apply H2; destruct l1; discriminate. }
  destruct (isActive r).
  - assert (activeCount (l1 ++ l2) = 0) as H0
        by (rewrite activeCount_app; lia).
    destruct (l1 ++ l2) as [|first rest].
    + exists []; repeat split; auto; intros H; contradiction H; reflexivity.
    + rewrite activeCount_cons in H0.
      exists (with_isActive true first :: rest); repeat split; auto.
      intros _; rewrite activeCount_cons; simpl; lia.
  - assert (activeCount (l1 ++ l2) = 1) as H1
        by (rewrite activeCount_app; lia).
    exists (l1 ++ l2).
    split; [destruct (l1 ++ l2); reflexivity|].
    split; [exact H3' | intros _; exact H1].
Qed.

Lemma step_inv (urls : list SavedUrl) (o : op) :
  I3 urls -> I2 urls -> op_ok urls o = true ->
  exists urls', step urls o = Ret urls' /\ I3 urls' /\ I2 urls'.
Proof.
  intros H3 H2 Ho; destruct o as [newId now d | i d | i | i]; simpl in *.
  - eexists; split; [reflexivity|].
    apply addUrl_inv; auto.
    destruct (hasId newId urls); [discriminate | reflexivity].
  - eexists; split; [reflexivity | apply updateUrl_inv; auto].
  - apply deleteUrl_inv; auto.
  - eexists; split; [reflexivity | apply setActiveUrl_inv; auto].
Qed.

Lemma run_inv (ops : list op) :
  forall urls, I3 urls -> I2 urls -> ops_ok urls ops = true ->
  forall k, exists urls',
    run urls (firstn k ops) = Ret urls' /\ I3 urls' /\ I2 urls'.
Proof.
  induction ops as [|o ops IH]; intros urls H3 H2 Hok k.
  - rewrite firstn_nil; exists urls; auto.
  - destruct k as [|k]; [exists urls; auto|].
    simpl in Hok; apply andb_true_iff in Hok; destruct Hok as [Ho Hok].
    destruct (step_inv _ _ H3 H2 Ho) as (urls' & Hs & H3' & H2').
    simpl; rewrite Hs in *; simpl.
    apply IH; auto.
Qed.

(** C1, as the specification states it, fails: [setActive] with an id no
    record has clears every flag and leaves a non-empty collection without
    an active record. *)
Lemma setActive_absent_breaks_I2 :
  run [] [Add (lit "a") 1 (Sample.form "https://a.example" "A");
          SetActive (lit "b")]
  = Ret [Sample.saved "a" "https://a.example" "A" 1 false]
  /\ ~ I2 [Sample.saved "a" "https://a.example" "A" 1 false].
Proof.
  split; [reflexivity|].
  intros H; specialize (H ltac:(discriminate)); discriminate H.
Qed.

(** C1 (amended): starting from the empty collection, after every
    operation of a finite sequence of add/update/delete/setActive
    operations in which each add brings a fresh id and each setActive names
    an id present in the collection, the collection satisfies I1 and I2. *)
Theorem store_single_active (ops : list op) :
  ops_ok [] ops = true ->
  forall k, exists urls,
    run [] (firstn k ops) = Ret urls /\ I1 urls /\ I2 urls.
Proof.
  intros Hok k.
  assert (I3 []) as H3 by constructor.
  assert (I2 []) as H2 by (intros H; contradiction H; reflexivity).
  destruct (run_inv ops _ H3 H2 Hok k) as (urls & Hr & _ & HI2).
  exists urls; repeat split; auto using I2_I1.
Qed.

Lemma store_single_active_witness :
  ops_ok [] Sample.ops = true
  /\ exists urls,
       run [] (firstn 6 Sample.ops) = Ret urls /\ I1 urls /\ I2 urls.
Proof.
  split; [reflexivity|].
  apply (store_single_active Sample.ops); reflexivity.
Defined.

End StoreInvariant.

(* ================================================================== *)
(** * The store: the four commands *)
(* ================================================================== *)

Section StoreCommands.

Import Store.

(** C2, as the specification states it, fails: with an id no record has,
    [setActive] returns normally and changes the collection. *)
Lemma setActive_absent_changes :
  hasId (lit "zzz") [Sample.A] = false
  /\ step [Sample.A] (SetActive (lit "zzz"))
     = Ret [with_isActive false Sample.A]
  /\ [with_isActive false Sample.A] <> [Sample.A].
Proof. repeat split; discriminate. Qed.

(** C2 (amended): [setActive(id)] never fails and keeps the length, the
    order and every field but [isActive]; it sets [isActive] to true on
    every record with that id and to false on every other record, so that
    with an id no record has, every record ends up inactive. *)
Theorem setActive_sets_flags (urls : list SavedUrl) (i : jsstring) :
  step urls (SetActive i) = Ret (setActiveUrl i urls)
  /\ length (setActiveUrl i urls) = length urls
  /\ (forall n u, nth_error urls n = Some u ->
      exists u', nth_error (setActiveUrl i urls) n = Some u'
        /\ id u' = id u /\ url u' = url u /\ title u' = title u
        /\ createdAt u' = createdAt u
        /\ (id u = i -> isActive u' = true)
        /\ (id u <> i -> isActive u' = false))
  /\ (hasId i urls = false -> activeCount (setActiveUrl i urls) = 0).
Proof.
  split; [reflexivity|].
  split; [apply length_map|].
  split.
  - intros n u Hn; exists (with_isActive (str_eqb (id u) i) u).
    unfold setActiveUrl; rewrite nth_error_map, Hn; simpl.
    repeat split; auto.
    + intros ->; apply str_eqb_refl.
    + apply str_eqb_neq.
  - intros H; rewrite (setActiveUrl_absent _ _ H).
    apply activeCount_inactive.
Qed.

Lemma setActive_sets_flags_witness :
  nth_error [Sample.A; Sample.B] 1 = Some Sample.B
  /\ exists u', nth_error (setActiveUrl (lit "b") [Sample.A; Sample.B]) 1
                = Some u'
        /\ id u' = id Sample.B /\ url u' = url Sample.B
        /\ title u' = title Sample.B
        /\ createdAt u' = createdAt Sample.B
        /\ (id Sample.B = lit "b" -> isActive u' = true)
        /\ (id Sample.B <> lit "b" -> isActive u' = false).
Proof.
  split; [reflexivity|].
  apply (proj1 (proj2 (proj2
           (setActive_sets_flags [Sample.A; Sample.B] (lit "b"))))).
  reflexivity.
Defined.

(** C3: for every [urlData], add on the empty collection produces a
    record with [isActive = true], add on a non-empty collection a record
    with [isActive = false]; either way the record is appended at the end
    of the ordered collection. *)
Theorem add_first_auto_activates (urls : list SavedUrl) (newId : jsstring)
        (now : Z) (urlData : UrlFormData) :
  let r := newUrl urls newId now urlData in
  step urls (Add newId now urlData) = Ret (urls ++ [r])
  /\ nth_error (urls ++ [r]) (length urls) = Some r
  /\ length (urls ++ [r]) = S (length urls)
  /\ url r = form_url urlData /\ title r = form_title urlData
  /\ (urls = [] -> isActive r = true)
  /\ (urls <> [] -> isActive r = false).
Proof.
  intros r; split; [reflexivity|].
  split; [rewrite nth_error_app2, Nat.sub_diag by lia; reflexivity|].
  split; [rewrite length_app; simpl; lia|].
  split; [reflexivity|]. split; [reflexivity|].
  split.
  - intros ->; reflexivity.
  - intros H; destruct urls; [contradiction H; reflexivity | reflexivity].
Qed.

Lemma add_first_auto_activates_witness :
  isActive (newUrl [] (lit "a") 1 (Sample.form "https://a.example" "A"))
  = true
  /\ isActive (newUrl [Sample.A] (lit "b") 2
                      (Sample.form "https://b.example" "B")) = false.
Proof.
  split.
  - apply (add_first_auto_activates [] (lit "a") 1
             (Sample.form "https://a.example" "A")); reflexivity.
  - apply (add_first_auto_activates [Sample.A] (lit "b") 2
             (Sample.form "https://b.example" "B")); discriminate.
Defined.

(** C4: when the record with the given id is the active one, [delete(id)]
    on a collection of at least two records makes the record at the first
    position of the remaining collection active, and on a collection of one
    record leaves the empty collection, which has no active record. *)
Theorem delete_active_reassigns_to_first (urls : list SavedUrl)
        (i : jsstring) (r : SavedUrl) :
  idCount i urls = 1 ->
  find (fun u => str_eqb (id u) i) urls = Some r ->
  isActive r = true ->
  (2 <= length urls ->
   exists first rest,
     filter (fun u => negb (str_eqb (id u) i)) urls = first :: rest
     /\ step urls (Delete i) = Ret (with_isActive true first :: rest)
     /\ activeUrl (with_isActive true first :: rest)
        = Some (with_isActive true first))
  /\ (length urls = 1 ->
      step urls (Delete i) = Ret [] /\ activeUrl [] = None).
Proof.
  intros Hc Hf Ha.
  destruct (idCount_split _ _ Hc) as (l1 & r' & l2 & -> & Hr & H1 & H2).
  rewrite (find_app_absent _ _ _ _ (find_absent _ _ H1)) in Hf.
  simpl in Hf; rewrite Hr, str_eqb_refl in Hf; injection Hf as <-.
  simpl step; rewrite (deleteUrl_split _ _ _ _ Hr H1 H2), Ha.
  rewrite filter_app; simpl filter.
  rewrite (filter_absent _ _ H1), (filter_absent _ _ H2).
  rewrite Hr, str_eqb_refl; simpl.
  assert (length (l1 ++ r' :: l2) = S (length (l1 ++ l2))) as ->
    by (rewrite !length_app; simpl; lia).
  split.
  - intros Hlen; destruct (l1 ++ l2) as [|first rest];
      [simpl in Hlen; lia|].
    exists first, rest; repeat split.
  - intros Hlen; destruct (l1 ++ l2) as [|first rest];
      [split; reflexivity | simpl in Hlen; lia].
Qed.

Lemma delete_active_reassigns_to_first_witness :
  (exists first rest,
     filter (fun u => negb (str_eqb (id u) (lit "a")))
            [Sample.A; Sample.B; Sample.C] = first :: rest
     /\ step [Sample.A; Sample.B; Sample.C] (Delete (lit "a"))
        = Ret (with_isActive true first :: rest)
     /\ activeUrl (with_isActive true first :: rest)
        = Some (with_isActive true first))
  /\ step [Sample.A] (Delete (lit "a")) = Ret [].
Proof.
  split.
  - apply (delete_active_reassigns_to_first
             [Sample.A; Sample.B; Sample.C] (lit "a") Sample.A);
      try reflexivity.
    simpl; lia.
  - apply (delete_active_reassigns_to_first [Sample.A] (lit "a") Sample.A);
      reflexivity.
Defined.

(** The scenario of the specification: [A(active), B, C], [delete(A.id)]
    gives [B(active), C]. *)
Example delete_scenario :
  step [Sample.A; Sample.B; Sample.C] (Delete (lit "a"))
  = Ret [with_isActive true Sample.B; Sample.C].
Proof. reflexivity. Qed.

(** C9: [update(id, urlData)] keeps the length and the order of the
    collection; the record with the given id keeps its [isActive], [id]
    and [createdAt] and takes the new [url] and [title]; every other
    record is unchanged. *)
Theorem update_changes_only_url_and_title (urls : list SavedUrl)
        (i : jsstring) (urlData : UrlFormData) :
  step urls (Update i urlData) = Ret (updateUrl i urlData urls)
  /\ length (updateUrl i urlData urls) = length urls
  /\ forall n u, nth_error urls n = Some u ->
     exists u', nth_error (updateUrl i urlData urls) n = Some u'
       /\ id u' = id u /\ createdAt u' = createdAt u
       /\ isActive u' = isActive u
       /\ (id u = i ->
           url u' = form_url urlData /\ title u' = form_title urlData)
       /\ (id u <> i -> u' = u).
Proof.
  split; [reflexivity|].
  split; [apply length_map|].
  intros n u Hn; unfold updateUrl; rewrite nth_error_map, Hn; simpl.
  destruct (str_eqb (id u) i) eqn:E; eexists; split; try reflexivity;
    do 3 (split; [reflexivity|]).
  - apply str_eqb_eq in E.
    split; [intros _; split; reflexivity | intros Hne; contradiction].
  - apply str_eqb_neq in E.
    split; [intros He; contradiction | reflexivity].
Qed.

Lemma update_changes_only_url_and_title_witness :
  nth_error [Sample.A; Sample.B] 0 = Some Sample.A
  /\ exists u',
       nth_error (updateUrl (lit "a") (Sample.form "https://x.example" "X")
                            [Sample.A; Sample.B]) 0 = Some u'
       /\ id u' = id Sample.A /\ createdAt u' = createdAt Sample.A
       /\ isActive u' = isActive Sample.A
       /\ (id Sample.A = lit "a" ->
           url u' = form_url (Sample.form "https://x.example" "X")
           /\ title u' = form_title (Sample.form "https://x.example" "X"))
       /\ (id Sample.A <> lit "a" -> u' = Sample.A).
Proof.
  split; [reflexivity|].
  apply (proj2 (proj2 (update_changes_only_url_and_title
                         [Sample.A; Sample.B] (lit "a")
                         (Sample.form "https://x.example" "X")))).
  reflexivity.
Defined.

(** C10: with an id that matches no record, [update] and [delete] return
    normally and leave the collection as it was. *)
Theorem update_delete_absent_noop (urls : list SavedUrl) (i : jsstring)
        (urlData : UrlFormData) :
  hasId i urls = false ->
  step urls (Update i urlData) = Ret urls
  /\ step urls (Delete i) = Ret urls.
Proof.
  intros H; simpl; split.
  - rewrite (updateUrl_absent _ _ _ H); reflexivity.
  - apply deleteUrl_absent; exact H.
Qed.

Lemma update_delete_absent_noop_witness :
  hasId (lit "zzz") [Sample.A; Sample.B] = false
  /\ step [Sample.A; Sample.B]
          (Update (lit "zzz") (Sample.form "https://x.example" "X"))
     = Ret [Sample.A; Sample.B]
  /\ step [Sample.A; Sample.B] (Delete (lit "zzz"))
     = Ret [Sample.A; Sample.B].
Proof.
  split; [reflexivity|].
  apply (update_delete_absent_noop [Sample.A; Sample.B] (lit "zzz")
           (Sample.form "https://x.example" "X")).
  reflexivity.
Defined.

(** [delete] never throws, whatever the collection and the id. *)
Lemma deleteUrl_returns (urls : list SavedUrl) (i : jsstring) :
  exists urls', deleteUrl i urls = Ret urls'.
Proof.
  unfold deleteUrl.
  destruct (filter _ urls) as [|first rest]; simpl.
  - rewrite andb_false_r; eexists; reflexivity.
  - destruct (_ && _); eexists; reflexivity.
Qed.

End StoreCommands.

(* ================================================================== *)
(** * The form: validation *)
(* ================================================================== *)

Section Validation.

Import Form.

(** C5: when the [url] or the [title] of the form is empty after
    trimming, submitting the form, whether it adds or edits, shows the
    validation error and leaves the collection (and the form) as it was. *)
Theorem submit_blank_rejected (newId : jsstring) (now : Z)
        (urls : list SavedUrl) (st : FormState) :
  trim (form_url (formData st)) = []
  \/ trim (form_title (formData st)) = [] ->
  exists t,
    handleSubmit newId now urls st = (urls, st, t)
    /\ isValidationError t = true.
Proof.
  intros H; unfold handleSubmit.
  assert (negb (truthy_str (trim (form_url (formData st))))
          || negb (truthy_str (trim (form_title (formData st)))) = true)
    as ->.
  { apply orb_true_iff; destruct H as [-> | ->]; auto. }
  eexists; split; reflexivity.
Qed.

Lemma submit_blank_rejected_witness :
  trim (form_url (formData (mkFormState true None (Sample.form "" "X"))))
  = []
  /\ (exists t,
        handleSubmit (lit "n") 7 [Sample.A]
                     (mkFormState true None (Sample.form "" "X"))
        = ([Sample.A], mkFormState true None (Sample.form "" "X"), t)
        /\ isValidationError t = true)
  /\ (exists t,
        handleSubmit (lit "n") 7 [Sample.A]
                     (mkFormState false (Some (lit "a"))
                                  (Sample.form "https://x" "   "))
        = ([Sample.A],
           mkFormState false (Some (lit "a"))
                       (Sample.form "https://x" "   "), t)
        /\ isValidationError t = true).
Proof.
  split; [reflexivity|]. split.
  - apply (submit_blank_rejected (lit "n") 7 [Sample.A]
             (mkFormState true None (Sample.form "" "X"))).
    left; reflexivity.
  - apply (submit_blank_rejected (lit "n") 7 [Sample.A]
             (mkFormState false (Some (lit "a"))
                          (Sample.form "https://x" "   "))).
    right; reflexivity.
Defined.

(** A form that passes validation reaches the store with the URL
    normalized: the scenario of the specification. *)
Example submit_scenario :
  fst (fst (handleSubmit (lit "n") 7 []
              (mkFormState true None (Sample.form "example.com" "Example"))))
  = [Sample.saved "n" "https://example.com" "Example" 7 true].
Proof. reflexivity. Qed.

End Validation.

(* ================================================================== *)
(** * The carousel *)
(* ================================================================== *)

Section CarouselFacts.

Import Store Carousel.

Lemma index_of_nat (A : Type) (l : list A) (n : nat) :
  index l (Z.of_nat n) = nth_error l n.
Proof.
  unfold index; destruct (Z.ltb_spec (Z.of_nat n) 0); [lia|].
  rewrite Nat2Z.id; reflexivity.
Qed.

Lemma findIndex_range (A : Type) (p : A -> bool) (l : list A) :
  findIndex p l = (-1)%Z
  \/ (0 <= findIndex p l < Z.of_nat (length l))%Z.
Proof.
  induction l as [|x l IH]; simpl; [left; reflexivity|].
  destruct (p x); [right; lia|].
  destruct (Z.ltb_spec (findIndex p l) 0); [left; reflexivity | right; lia].
Qed.

Lemma findIndex_app_stop (A : Type) (p : A -> bool) (l1 l2 : list A)
      (x : A) :
  (forall u, In u l1 -> p u = false) -> p x = true ->
  findIndex p (l1 ++ x :: l2) = Z.of_nat (length l1).
Proof.
  intros H Hx; induction l1 as [|y l1 IH]; simpl.
  - rewrite Hx; reflexivity.
  - rewrite (H y (or_introl eq_refl)), IH
      by (intros u Hu; apply H; right; exact Hu).
    destruct (Z.ltb_spec (Z.of_nat (length l1)) 0); lia.
Qed.

(** The last record of a collection, split off. *)
Lemma last_split (l : list SavedUrl) (u : SavedUrl) :
  nth_error l (length l - 1) = Some u -> exists l1, l = l1 ++ [u].
Proof.
  intros H; destruct (nth_error_split _ _ H) as (l1 & l2 & -> & Hl).
  rewrite length_app in Hl; simpl in Hl.
  destruct l2; [exists l1; reflexivity | simpl in Hl; lia].
Qed.

Lemma navigateNext_last (urls : list SavedUrl) (a first : SavedUrl) :
  2 <= length urls ->
  currentIndex urls (Some a) = (Z.of_nat (length urls) - 1)%Z ->
  nth_error urls 0 = Some first ->
  navigateNext urls (Some a) = Ret (Activate (id first)).
Proof.
  intros Hn Hc H0; unfold navigateNext, hasMultipleUrls.
  rewrite Hc; destruct (Nat.leb_spec 2 (length urls)); [|lia].
  destruct (Z.eqb_spec (Z.of_nat (length urls) - 1) (-1)); [lia|].
  simpl negb; simpl orb; cbv iota.
  replace (Z.of_nat (length urls) - 1 + 1)%Z with (Z.of_nat (length urls))
    by lia.
  rewrite Z.rem_same by lia.
  unfold activateAt; change (index urls 0) with (nth_error urls 0).
  rewrite H0; reflexivity.
Qed.

Lemma navigatePrevious_first (urls : list SavedUrl) (a last : SavedUrl) :
  2 <= length urls ->
  currentIndex urls (Some a) = 0%Z ->
  nth_error urls (length urls - 1) = Some last ->
  navigatePrevious urls (Some a) = Ret (Activate (id last)).
Proof.
  intros Hn Hc Hl; unfold navigatePrevious, hasMultipleUrls.
  rewrite Hc; destruct (Nat.leb_spec 2 (length urls)); [|lia].
  simpl; unfold activateAt.
  replace (Z.of_nat (length urls) - 1)%Z
    with (Z.of_nat (length urls - 1)) by lia.
  rewrite index_of_nat, Hl; reflexivity.
Qed.

Lemma navigate_single (urls : list SavedUrl) (a : option SavedUrl) :
  length urls < 2 ->
  navigateNext urls a = Ret Stay /\ navigatePrevious urls a = Ret Stay.
Proof.
  intros Hn; unfold navigateNext, navigatePrevious, hasMultipleUrls.
  destruct (Nat.leb_spec 2 (length urls)); [lia|]; split; reflexivity.
Qed.

(** After [setActiveUrl] with the id of the last record of a collection
    with unique ids, that record is the active one and the current one. *)
Lemma setActiveUrl_last (l1 : list SavedUrl) (u : SavedUrl) :
  I3 (l1 ++ [u]) ->
  let urls' := setActiveUrl (id u) (l1 ++ [u]) in
  activeUrl urls' = Some (with_isActive true u)
  /\ currentIndex urls' (activeUrl urls') = Z.of_nat (length l1).
Proof.
  intros H3 urls'.
  assert (hasId (id u) l1 = false) as H1.
  { unfold I3 in H3; rewrite map_app in H3; simpl in H3.
    apply NoDup_remove_2 in H3; rewrite app_nil_r in H3.
    destruct (hasId (id u) l1) eqn:E; [|reflexivity].
    apply hasId_in in E; contradiction. }
  assert (urls' = map (with_isActive false) l1 ++ [with_isActive true u])
    as -> by (apply setActiveUrl_split; auto).
  assert (activeUrl (map (with_isActive false) l1 ++ [with_isActive true u])
          = Some (with_isActive true u)) as Ha.
  { unfold activeUrl; rewrite find_app_absent; [reflexivity|].
    apply find_inactive, activeCount_inactive. }
  split; [exact Ha|].
  rewrite Ha; unfold currentIndex.
  rewrite findIndex_app_stop, length_map; auto.
  - intros v Hv; apply in_map_iff in Hv; destruct Hv as (w & <- & Hw).
    simpl; revert w Hw; apply hasId_false; exact H1.
  - apply str_eqb_refl.
Qed.

End CarouselFacts.

Section CarouselNavigation.

Import Store Carousel.

(** C7: in a collection with an active record, [next()] with the active
    record at the last index activates the record at index 0,
    [previous()] with the active record at index 0 activates the record at
    index [length - 1], and both leave a collection of fewer than two
    records as it is. *)
Theorem navigation_wraparound (urls : list SavedUrl) (a : SavedUrl) :
  activeUrl urls = Some a ->
  (2 <= length urls ->
   currentIndex urls (Some a) = (Z.of_nat (length urls) - 1)%Z ->
   exists first,
     nth_error urls 0 = Some first
     /\ next urls = Ret (setActiveUrl (id first) urls)
     /\ activeUrl (setActiveUrl (id first) urls)
        = Some (with_isActive true first)
     /\ currentIndex (setActiveUrl (id first) urls)
                     (activeUrl (setActiveUrl (id first) urls)) = 0%Z)
  /\ (2 <= length urls ->
      currentIndex urls (Some a) = 0%Z ->
      exists last,
        nth_error urls (length urls - 1) = Some last
        /\ previous urls = Ret (setActiveUrl (id last) urls)
        /\ nth_error (setActiveUrl (id last) urls) (length urls - 1)
           = Some (with_isActive true last)
        /\ (I3 urls ->
            activeUrl (setActiveUrl (id last) urls)
            = Some (with_isActive true last)
            /\ currentIndex (setActiveUrl (id last) urls)
                            (activeUrl (setActiveUrl (id last) urls))
               = (Z.of_nat (length urls) - 1)%Z))
  /\ (length urls < 2 -> next urls = Ret urls /\ previous urls = Ret urls).
Proof.
  intros Ha; split; [|split].
  - intros Hn Hc; destruct urls as [|first rest]; [simpl in Hn; lia|].
    exists first; split; [reflexivity|].
    split.
    { unfold next; rewrite Ha.
      rewrite (navigateNext_last _ a first Hn Hc eq_refl); reflexivity. }
    unfold activeUrl, currentIndex, setActiveUrl; simpl.
    rewrite str_eqb_refl; simpl; rewrite str_eqb_refl; split; reflexivity.
  - intros Hn Hc.
    destruct (nth_error urls (length urls - 1)) as [last|] eqn:Hl.
    2:{ apply nth_error_None in Hl; lia. }
    exists last; split; [reflexivity|].
    split.
    { unfold previous; rewrite Ha.
      rewrite (navigatePrevious_first _ a last Hn Hc Hl); reflexivity. }
    split.
    { unfold setActiveUrl; rewrite nth_error_map, Hl; simpl.
      rewrite str_eqb_refl; reflexivity. }
    intros H3; destruct (last_split _ _ Hl) as [l1 ->].
    destruct (setActiveUrl_last l1 last H3) as [E1 E2].
    split; [exact E1|].
    rewrite E2, length_app; simpl; lia.
  - intros Hn; unfold next, previous.
    destruct (navigate_single urls (activeUrl urls) Hn) as [-> ->].
    split; reflexivity.
Qed.

Lemma navigation_wraparound_witness :
  activeUrl [Sample.B; Sample.C; Sample.A] = Some Sample.A
  /\ next [Sample.B; Sample.C; Sample.A]
     = Ret [with_isActive true Sample.B; Sample.C;
            with_isActive false Sample.A]
  /\ previous [Sample.A; Sample.B; Sample.C]
     = Ret [with_isActive false Sample.A; Sample.B;
            with_isActive true Sample.C]
  /\ next [Sample.A] = Ret [Sample.A]
  /\ previous [Sample.A] = Ret [Sample.A].
Proof.
  split; [reflexivity|].
  split.
  { destruct (proj1 (navigation_wraparound
                       [Sample.B; Sample.C; Sample.A] Sample.A eq_refl)
                    ltac:(simpl; lia) eq_refl)
      as (first & H0 & Hnext & _).
    injection H0 as <-; exact Hnext. }
  split.
  { destruct (proj1 (proj2 (navigation_wraparound
                       [Sample.A; Sample.B; Sample.C] Sample.A eq_refl))
                    ltac:(simpl; lia) eq_refl)
      as (last & Hl & Hprev & _).
    injection Hl as <-; exact Hprev. }
  apply (proj2 (proj2 (navigation_wraparound [Sample.A] Sample.A eq_refl))).
  simpl; lia.
Defined.

(** The scenario of the specification: on [A(active), B], [next()] makes
    B active and [next()] again makes A active. *)
Example next_scenario :
  next [Sample.A; Sample.B]
  = Ret [with_isActive false Sample.A; with_isActive true Sample.B]
  /\ next [with_isActive false Sample.A; with_isActive true Sample.B]
     = Ret [Sample.A; Sample.B].
Proof. split; reflexivity. Qed.

(** The navigation functions never throw: the index they compute is in
    range. *)
Lemma navigateNext_returns (urls : list SavedUrl) (a : option SavedUrl) :
  exists n, navigateNext urls a = Ret n.
Proof.
  unfold navigateNext, hasMultipleUrls, currentIndex.
  destruct (Nat.leb_spec 2 (length urls)); [|eexists; reflexivity].
  simpl negb; simpl orb.
  set (c := match a with Some _ => _ | None => _ end).
  assert (c = (-1)%Z \/ (0 <= c < Z.of_nat (length urls))%Z) as Hc.
  { subst c; destruct a; [apply findIndex_range | left; reflexivity]. }
  destruct (Z.eqb_spec c (-1)); [eexists; reflexivity|].
  destruct Hc as [Hc | Hc]; [contradiction|].
  unfold activateAt.
  assert (exists k, Z.rem (c + 1) (Z.of_nat (length urls)) = Z.of_nat k
                    /\ k < length urls) as (k & -> & Hk).
  { exists (Z.to_nat (Z.rem (c + 1) (Z.of_nat (length urls)))).
    pose proof (Z.rem_bound_pos (c + 1) (Z.of_nat (length urls))
                  ltac:(lia) ltac:(lia)).
    split; lia. }
  rewrite index_of_nat.
  destruct (nth_error urls k) eqn:E; [eexists; reflexivity|].
  apply nth_error_None in E; lia.
Qed.

End CarouselNavigation.

Section Gestures.

Import Store Carousel.

(** When neither coordinate is 0, [handleTouchEnd] calls [navigateNext]
    exactly for a displacement above the threshold, [navigatePrevious]
    exactly for one below its opposite, and nothing in between. *)
Lemma gesture_nonzero (s e : Z) (urls : list SavedUrl) :
  hasMultipleUrls urls = true -> s <> 0%Z -> e <> 0%Z ->
  (handleTouchEnd_call (Some s) (Some e) urls = CallNext
   <-> (minSwipeDistance < displacement s e)%Z)
  /\ (handleTouchEnd_call (Some s) (Some e) urls = CallPrevious
      <-> (displacement s e < - minSwipeDistance)%Z)
  /\ (handleTouchEnd_call (Some s) (Some e) urls = CallNone
      <-> (Z.abs (displacement s e) <= minSwipeDistance)%Z).
Proof.
  intros Hm Hs He; unfold handleTouchEnd_call, falsy_num, displacement.
  rewrite Hm; simpl num.
  destruct (Z.eqb_spec s 0); [contradiction|].
  destruct (Z.eqb_spec e 0); [contradiction|].
  simpl; unfold minSwipeDistance.
  destruct (Z.ltb_spec 50 (s - e)); [|destruct (Z.ltb_spec (s - e) (-50))];
    repeat split; intros; try discriminate; try reflexivity; lia.
Qed.

(** C8 on the code: a swipe of 100 pixels that ends (or starts) at
    coordinate 0 exceeds the threshold and yet calls neither function,
    because [!touchEnd] and [!touchStart] hold of the number 0. *)
Theorem swipe_at_zero_coordinate_ignored :
  hasMultipleUrls [Sample.A; Sample.B] = true
  /\ (minSwipeDistance < displacement 100 0)%Z
  /\ handleTouchEnd_call (Some 100%Z) (Some 0%Z) [Sample.A; Sample.B]
     = CallNone
  /\ handleTouchEnd (Some 100%Z) (Some 0%Z) [Sample.A; Sample.B]
                    (activeUrl [Sample.A; Sample.B]) = Ret Stay
  /\ (displacement 0 100 < - minSwipeDistance)%Z
  /\ handleTouchEnd_call (Some 0%Z) (Some 100%Z) [Sample.A; Sample.B]
     = CallNone
  /\ handleTouchEnd_call (Some 101%Z) (Some 1%Z) [Sample.A; Sample.B]
     = CallNext.
Proof. repeat split. Qed.

End Gestures.


(* ================================================================== *)
(** * The store: how the commands compose *)
(* ================================================================== *)

Section StoreComposition.

Import Store.

Lemma setActiveUrl_twice (urls : list SavedUrl) (a b : jsstring) :
  setActiveUrl b (setActiveUrl a urls) = setActiveUrl b urls.
Proof.
  unfold setActiveUrl; rewrite map_map.
  apply map_ext; intros u; reflexivity.
Qed.

(** X1: the last [setActive] wins, so that repeating a [setActive] changes
    nothing more. *)
Theorem setActiveUrl_last_wins (urls : list SavedUrl) (i j : jsstring) :
  setActiveUrl j (setActiveUrl i urls) = setActiveUrl j urls
  /\ setActiveUrl i (setActiveUrl i urls) = setActiveUrl i urls.
Proof. split; apply setActiveUrl_twice. Qed.

(** X2: the last [update] of an id wins, and [update] and [setActive]
    commute. *)
Theorem updateUrl_composes (urls : list SavedUrl) (i j : jsstring)
        (d d' : UrlFormData) :
  updateUrl i d (updateUrl i d' urls) = updateUrl i d urls
  /\ setActiveUrl j (updateUrl i d urls) = updateUrl i d (setActiveUrl j urls).
Proof.
  unfold updateUrl, setActiveUrl; rewrite !map_map; split;
    apply map_ext; intros u; simpl;
    destruct (str_eqb (id u) i) eqn:E; simpl; rewrite ?E; reflexivity.
Qed.

Lemma filter_removes_id (i : jsstring) (l : list SavedUrl) :
  hasId i (filter (fun u => negb (str_eqb (id u) i)) l) = false.
Proof.
  apply hasId_false; intros u Hu; apply filter_In in Hu.
  destruct Hu as [_ Hu]; apply negb_true_iff in Hu; exact Hu.
Qed.

(** The outcome of [deleteUrl]: the filtered collection, with the flag of
    its first record set or not. *)
Lemma deleteUrl_shape (i : jsstring) (urls : list SavedUrl) :
  let remaining := filter (fun u => negb (str_eqb (id u) i)) urls in
  deleteUrl i urls = Ret remaining
  \/ exists first rest,
       remaining = first :: rest
       /\ deleteUrl i urls = Ret (with_isActive true first :: rest).
Proof.
  intros remaining; unfold deleteUrl; fold remaining.
  destruct remaining as [|first rest]; simpl.
  - rewrite andb_false_r; left; reflexivity.
  - destruct (_ && _); [right; exists first, rest; split; reflexivity|].
    left; reflexivity.
Qed.

(** X3: [delete(id)] never throws; no record of the outcome has the id,
    and the outcome holds the other records in their order with their
    [id], [url], [title] and [createdAt]. *)
Theorem deleteUrl_removes (urls : list SavedUrl) (i : jsstring) :
  exists urls',
    deleteUrl i urls = Ret urls'
    /\ hasId i urls' = false
    /\ map content urls'
       = map content
             (filter (fun u => negb (str_eqb (id u) i)) urls)
    /\ length urls' = length urls - idCount i urls.
Proof.
  assert (length (filter (fun u => negb (str_eqb (id u) i)) urls)
          = length urls - idCount i urls) as Hlen.
  { assert (length (filter (fun u => negb (str_eqb (id u) i)) urls)
            + idCount i urls = length urls); [|lia].
    unfold idCount; induction urls as [|u l IH]; simpl; [reflexivity|].
    destruct (str_eqb (id u) i); simpl; lia. }
  pose proof (filter_removes_id i urls) as Hno.
  destruct (deleteUrl_shape i urls) as [-> | (first & rest & E & ->)].
  - eexists; repeat split; auto.
  - rewrite E in *; exists (with_isActive true first :: rest).
    repeat split; auto.
Qed.

(** X4: deleting records none of which is active leaves the active
    record as it is. *)
Theorem deleteUrl_inactive_keeps_active (urls : list SavedUrl)
        (i : jsstring) :
  (forall u, In u urls -> id u = i -> isActive u = false) ->
  deleteUrl i urls
  = Ret (filter (fun u => negb (str_eqb (id u) i)) urls)
  /\ activeUrl (filter (fun u => negb (str_eqb (id u) i)) urls)
     = activeUrl urls.
Proof.
  intros H; split.
  - unfold deleteUrl.
    destruct (find (fun u => str_eqb (id u) i) urls) as [r|] eqn:Hf;
      simpl; [|reflexivity].
    apply find_some in Hf; destruct Hf as [Hin Hr].
    apply str_eqb_eq in Hr; rewrite (H r Hin Hr); reflexivity.
  - unfold activeUrl; induction urls as [|u l IH]; simpl; [reflexivity|].
    assert (find isActive (filter (fun u => negb (str_eqb (id u) i)) l)
            = find isActive l) as IH'
      by (apply IH; intros v Hv; apply H; right; exact Hv).
    destruct (str_eqb (id u) i) eqn:E; simpl.
    + apply str_eqb_eq in E.
      rewrite (H u (or_introl eq_refl) E); exact IH'.
    + rewrite IH'; reflexivity.
Qed.

Lemma deleteUrl_inactive_keeps_active_witness :
  step [Sample.A; Sample.B; Sample.C] (Delete (lit "b"))
  = Ret [Sample.A; Sample.C]
  /\ activeUrl [Sample.A; Sample.C]
     = activeUrl [Sample.A; Sample.B; Sample.C].
Proof.
  apply (deleteUrl_inactive_keeps_active
           [Sample.A; Sample.B; Sample.C] (lit "b")).
  intros u [<- | [<- | [<- | []]]] E; try reflexivity; discriminate E.
Defined.

(** X5: adding a record under an id no record has and deleting that id
    gives the collection back. *)
Theorem add_then_delete (urls : list SavedUrl) (newId : jsstring)
        (now : Z) (d : UrlFormData) :
  hasId newId urls = false ->
  run urls [Add newId now d; Delete newId] = Ret urls.
Proof.
  intros H; simpl; unfold addUrl.
  rewrite (deleteUrl_split newId urls [] (newUrl urls newId now d)
             eq_refl H eq_refl).
  rewrite app_nil_r; simpl.
  destruct urls; reflexivity.
Qed.

Lemma add_then_delete_witness :
  hasId (lit "n") [Sample.A; Sample.B] = false
  /\ run [Sample.A; Sample.B]
         [Add (lit "n") 9 (Sample.form "https://n.example" "N");
          Delete (lit "n")]
     = Ret [Sample.A; Sample.B].
Proof.
  split; [reflexivity|].
  apply (add_then_delete [Sample.A; Sample.B] (lit "n") 9
           (Sample.form "https://n.example" "N")).
  reflexivity.
Defined.

End StoreComposition.


(* ================================================================== *)
(** * The management page *)
(* ================================================================== *)

Section ManagementPage.

Import Store Form.

Lemma normalizeUrl_scheme_trimmed (s : jsstring) :
  hasScheme (normalizeUrl s) = true /\ trimmed (normalizeUrl s).
Proof.
  rewrite normalizeUrl_cases; destruct (hasScheme (trim s)) eqn:E.
  - split; [exact E | apply trim_idem].
  - split.
    + unfold hasScheme; rewrite (startsWith_app (lit "https://"));
        apply orb_true_r.
    + eapply trim_prefixed; try reflexivity; apply trim_ends.
Qed.

(** X6: whatever the input, the normalized URL begins with [http://] or
    [https://], has no white space at its ends and is not empty. *)
Theorem normalizeUrl_normal (s : jsstring) :
  hasScheme (normalizeUrl s) = true
  /\ trimmed (normalizeUrl s)
  /\ normalizeUrl s <> [].
Proof.
  destruct (normalizeUrl_scheme_trimmed s) as [H1 H2].
  repeat split; auto.
  intros E; rewrite E in H1; discriminate H1.
Qed.

Lemma I3_unique (l : list SavedUrl) (x y : SavedUrl) :
  I3 l -> In x l -> In y l -> id x = id y -> x = y.
Proof.
  unfold I3; induction l as [|z l IH]; simpl; [intros _ []|].
  intros Hnd Hx Hy E; inversion Hnd as [|? ? Hz Hl]; subst.
  destruct Hx as [<- | Hx], Hy as [<- | Hy]; auto.
  - exfalso; apply Hz; rewrite E; apply in_map; exact Hy.
  - exfalso; apply Hz; rewrite <- E; apply in_map; exact Hx.
Qed.

Lemma hasId_In (l : list SavedUrl) (u : SavedUrl) :
  In u l -> hasId (id u) l = true.
Proof. intros H; apply hasId_in, in_map; exact H. Qed.

Lemma hasId_ids (e : jsstring) (l l' : list SavedUrl) :
  map id l = map id l' -> hasId e l = hasId e l'.
Proof.
  intros E.
  destruct (hasId e l) eqn:H1, (hasId e l') eqn:H2; try reflexivity;
    [apply hasId_in in H1; rewrite E in H1; apply hasId_in in H1
    |apply hasId_in in H2; rewrite <- E in H2; apply hasId_in in H2];
    congruence.
Qed.

Lemma stored_ok_scheme_fixed (u : SavedUrl) :
  stored_ok u -> normalizeUrl (url u) = url u /\ trim (url u) <> [].
Proof.
  intros (_ & Hs & Ht & _).
  rewrite (normalizeUrl_scheme _ Hs); split; [exact Ht|].
  rewrite Ht; intros E; rewrite E in Hs; discriminate Hs.
Qed.

Lemma truthy_str_true (s : jsstring) : truthy_str s = true <-> s <> [].
Proof. destruct s; simpl; split; congruence. Qed.

(** X7: opening a stored record for editing and submitting the form as
    it is leaves the collection as it was and closes the form. *)
Theorem edit_submit_unchanged (urls : list SavedUrl) (u : SavedUrl)
        (newId : jsstring) (now : Z) (st : FormState) :
  I3 urls -> In u urls -> stored_ok u ->
  exists t,
    handleSubmit newId now urls (handleEdit u st) = (urls, initialForm, t)
    /\ isValidationError t = false.
Proof.
  intros H3 Hin Hok.
  destruct (stored_ok_scheme_fixed u Hok) as [Hn Hu].
  destruct Hok as (Hid & _ & _ & Ht).
  unfold handleSubmit, handleEdit; simpl.
  apply truthy_str_true in Hu, Ht, Hid.
  rewrite Hu, Ht, Hid, Hn; simpl.
  assert (updateUrl (id u) {| form_url := url u; form_title := title u |} urls
          = urls) as ->.
  { unfold updateUrl; rewrite <- (map_id urls) at 2.
    apply map_ext_in; intros v Hv.
    destruct (str_eqb (id v) (id u)) eqn:E; [|reflexivity].
    apply str_eqb_eq in E.
    rewrite (I3_unique urls v u H3 Hv Hin E); destruct u; reflexivity. }
  eexists; split; reflexivity.
Qed.

Lemma edit_submit_unchanged_witness :
  exists t,
    handleSubmit (lit "n") 9 [Sample.A; Sample.B]
                 (handleEdit Sample.B initialForm)
    = ([Sample.A; Sample.B], initialForm, t)
    /\ isValidationError t = false.
Proof.
  apply (edit_submit_unchanged [Sample.A; Sample.B] Sample.B (lit "n") 9
           initialForm).
  - repeat constructor; simpl; intuition discriminate.
  - right; left; reflexivity.
  - repeat split; discriminate.
Defined.

Lemma stored_ok_with_isActive (b : bool) (u : SavedUrl) :
  stored_ok u -> stored_ok (with_isActive b u).
Proof. unfold stored_ok; simpl; tauto. Qed.

Lemma stored_ok_setActiveUrl (i : jsstring) (l : list SavedUrl) :
  Forall stored_ok l -> Forall stored_ok (setActiveUrl i l).
Proof.
  intros H; unfold setActiveUrl; apply Forall_map.
  revert H; apply Forall_impl; intros u; apply stored_ok_with_isActive.
Qed.

Lemma stored_ok_filter (p : SavedUrl -> bool) (l : list SavedUrl) :
  Forall stored_ok l -> Forall stored_ok (filter p l).
Proof.
  rewrite !Forall_forall; intros H u Hu; apply H.
  apply filter_In in Hu; tauto.
Qed.

Lemma stored_ok_deleteUrl (i : jsstring) (l l' : list SavedUrl) :
  Forall stored_ok l -> deleteUrl i l = Ret l' -> Forall stored_ok l'.
Proof.
  intros H Hd; pose proof (stored_ok_filter
                              (fun u => negb (str_eqb (id u) i)) l H) as Hf.
  destruct (deleteUrl_shape i l) as [E | (first & rest & E1 & E2)].
  - rewrite E in Hd; injection Hd as <-; exact Hf.
  - rewrite E2 in Hd; injection Hd as <-.
    rewrite E1 in Hf; inversion Hf; subst.
    constructor; [apply stored_ok_with_isActive|]; assumption.
Qed.

Lemma stored_ok_updateUrl (i : jsstring) (d : UrlFormData)
      (l : list SavedUrl) :
  hasScheme (form_url d) = true -> trimmed (form_url d) ->
  trim (form_title d) <> [] ->
  Forall stored_ok l -> Forall stored_ok (updateUrl i d l).
Proof.
  intros H1 H2 H3 H; unfold updateUrl; apply Forall_map.
  revert H; apply Forall_impl; intros u Hu.
  destruct (str_eqb (id u) i); [|exact Hu].
  destruct Hu as (Hid & _); unfold stored_ok; simpl; auto.
Qed.

Lemma I2_active_iff_nonempty (l : list SavedUrl) :
  I2 l -> (activeUrl l = None <-> l = []).
Proof.
  intros H2; split; [|intros ->; reflexivity].
  intros Hn; destruct l as [|u l]; [reflexivity|].
  exfalso; specialize (H2 ltac:(discriminate)).
  assert (activeCount (u :: l) = 0); [|lia].
  apply activeCount_zero; intros v Hv.
  destruct (isActive v) eqn:E; [|reflexivity].
  unfold activeUrl in Hn.
  pose proof (find_none _ _ Hn v Hv); congruence.
Qed.

(** What a submission keeps. *)
Lemma handleSubmit_inv (newId : jsstring) (now : Z) (urls : list SavedUrl)
      (st : FormState) :
  App.Inv {| App.app_urls := urls; App.app_form := st |} ->
  newId <> [] -> hasId newId urls = false ->
  App.Inv {| App.app_urls := fst (fst (handleSubmit newId now urls st));
             App.app_form := snd (fst (handleSubmit newId now urls st)) |}.
Proof.
  unfold App.Inv; simpl; intros (H3 & H2 & Hok & He) Hn Hf.
  unfold handleSubmit.
  destruct (negb (truthy_str (trim (form_url (formData st))))
            || negb (truthy_str (trim (form_title (formData st)))))
    eqn:Hv; simpl; [auto|].
  apply orb_false_iff in Hv; destruct Hv as [_ Hv].
  apply negb_false_iff, truthy_str_true in Hv.
  destruct (normalizeUrl_scheme_trimmed (form_url (formData st))) as (N1 & N2).
  destruct (editingId st) as [e|] eqn:Ee.
  - destruct (He e eq_refl) as [_ Hne].
    apply truthy_str_true in Hne; rewrite Hne; simpl.
    destruct (updateUrl_inv urls e
                {| form_url := normalizeUrl (form_url (formData st));
                   form_title := form_title (formData st) |} H3 H2)
      as [H3' H2'].
    split; [exact H3'|]. split; [exact H2'|].
    split; [apply stored_ok_updateUrl; auto|].
    intros e0 Hx; discriminate Hx.
  - simpl.
    destruct (addUrl_inv urls newId now
                {| form_url := normalizeUrl (form_url (formData st));
                   form_title := form_title (formData st) |} H3 H2 Hf)
      as [H3' H2'].
    split; [exact H3'|]. split; [exact H2'|].
    split; [|intros e0 Hx; discriminate Hx].
    unfold addUrl; apply Forall_app; split; [exact Hok|].
    constructor; [|constructor].
    unfold stored_ok; simpl; auto.
Qed.

Lemma handle_inv (s : App.AppState) (e : App.event) :
  App.Inv s -> App.event_ok s e = true ->
  exists s', App.handle s e = Ret s' /\ App.Inv s'.
Proof.
  destruct s as [urls st]; intros HI Hok.
  pose proof HI as (H3 & H2 & Hs & He); simpl in H3, H2, Hs, He.
  destruct e as [| v | v | newId now | | k | k | k]; simpl App.handle.
  - destruct (busy st); eexists; (split; [reflexivity | exact HI]).
  - destruct (formOpen st); eexists; (split; [reflexivity | exact HI]).
  - destruct (formOpen st); eexists; (split; [reflexivity | exact HI]).
  - destruct (formOpen st); [|eexists; split; [reflexivity | exact HI]].
    simpl in Hok; apply andb_true_iff in Hok; destruct Hok as [Hn Hf].
    apply truthy_str_true in Hn; apply negb_true_iff in Hf.
    pose proof (handleSubmit_inv newId now urls st HI Hn Hf) as HI'.
    destruct (handleSubmit newId now urls st) as [[urls' st'] t].
    eexists; split; [reflexivity | exact HI'].
  - destruct (formOpen st); [|eexists; split; [reflexivity | exact HI]].
    eexists; split; [reflexivity|].
    unfold App.Inv; simpl.
    split; [exact H3|]. split; [exact H2|]. split; [exact Hs|].
    intros e0 Hx; discriminate Hx.
  - destruct (nth_error urls k) as [u|] eqn:Hk;
      [|eexists; split; [reflexivity | exact HI]].
    apply nth_error_In in Hk.
    destruct (setActiveUrl_inv urls (id u) H3 (hasId_In urls u Hk))
      as [H3' H2'].
    eexists; split; [reflexivity|].
    unfold App.Inv; simpl.
    split; [exact H3'|]. split; [exact H2'|].
    split; [apply stored_ok_setActiveUrl; exact Hs|].
    intros e0 Hx.
    rewrite (hasId_ids e0 (setActiveUrl (id u) urls) urls
               (ids_setActiveUrl (id u) urls)).
    apply He; exact Hx.
  - destruct (busy st); [eexists; split; [reflexivity | exact HI]|].
    destruct (nth_error urls k) as [u|] eqn:Hk;
      [|eexists; split; [reflexivity | exact HI]].
    apply nth_error_In in Hk.
    eexists; split; [reflexivity|].
    unfold App.Inv; simpl.
    split; [exact H3|]. split; [exact H2|]. split; [exact Hs|].
    intros e0 [= <-]; split; [apply hasId_In; exact Hk|].
    rewrite Forall_forall in Hs; apply (Hs u Hk).
  - destruct (busy st) eqn:Hb; [eexists; split; [reflexivity | exact HI]|].
    destruct (nth_error urls k) as [u|] eqn:Hk;
      [|eexists; split; [reflexivity | exact HI]].
    destruct (deleteUrl_inv urls (id u) H3 H2) as (urls' & Hd & H3' & H2').
    unfold handleDelete; rewrite Hd; simpl.
    eexists; split; [reflexivity|].
    unfold App.Inv; simpl.
    split; [exact H3'|]. split; [exact H2'|].
    split; [apply (stored_ok_deleteUrl (id u) urls urls' Hs Hd)|].
    intros e0 Hx; exfalso.
    unfold busy in Hb; apply orb_false_iff in Hb; destruct Hb as [_ Hb].
    rewrite Hx in Hb; discriminate Hb.
Qed.

Lemma run_app_inv (es : list App.event) :
  forall s, App.Inv s -> App.events_ok s es = true ->
  forall k, exists s', App.run s (firstn k es) = Ret s' /\ App.Inv s'.
Proof.
  induction es as [|e es IH]; intros s HI Hok k.
  - rewrite firstn_nil; exists s; auto.
  - destruct k as [|k]; [exists s; auto|].
    simpl in Hok; apply andb_true_iff in Hok; destruct Hok as [He Hok].
    destruct (handle_inv s e HI He) as (s' & Hs & HI').
    simpl; rewrite Hs in *; simpl.
    apply IH; auto.
Qed.

(** X8: whatever the user does on the management page, starting from the
    empty collection and with generated ids that are fresh and not empty,
    no event throws and after every event the ids are unique, exactly one
    record of a non-empty collection is active, every stored URL begins
    with a scheme and is trimmed, every title is not blank, and there is
    no active record only when the collection is empty. *)
Theorem page_keeps_invariants (es : list App.event) :
  App.events_ok App.init es = true ->
  forall k, exists s,
    App.run App.init (firstn k es) = Ret s
    /\ I1 (App.app_urls s) /\ I2 (App.app_urls s) /\ I3 (App.app_urls s)
    /\ Forall stored_ok (App.app_urls s)
    /\ (activeUrl (App.app_urls s) = None <-> App.app_urls s = []).
Proof.
  intros Hok k.
  assert (App.Inv App.init) as HI.
  { unfold App.Inv; simpl; repeat split; try discriminate.
    - constructor.
    - intros H; contradiction H; reflexivity.
    - constructor. }
  destruct (run_app_inv es App.init HI Hok k) as (s & Hr & H3 & H2 & Hs & _).
  exists s; repeat split; auto using I2_I1;
    apply (I2_active_iff_nonempty _ H2).
Qed.

Lemma page_keeps_invariants_witness :
  App.events_ok App.init Sample.events = true
  /\ exists s,
       App.run App.init (firstn 15 Sample.events) = Ret s
       /\ I1 (App.app_urls s) /\ I2 (App.app_urls s) /\ I3 (App.app_urls s)
       /\ Forall stored_ok (App.app_urls s)
       /\ (activeUrl (App.app_urls s) = None <-> App.app_urls s = []).
Proof.
  split; [reflexivity|].
  apply (page_keeps_invariants Sample.events); reflexivity.
Defined.

(** The session of [Sample.events], run. *)
Example page_session :
  option_map App.app_urls
    (match App.run App.init Sample.events with
     | Ret s => Some s
     | Throw _ => None
     end)
  = Some [Sample.saved "a" "https://a.example" "A2" 1 true].
Proof. reflexivity. Qed.

End ManagementPage.

(* ================================================================== *)
(** * The carousel: positions *)
(* ================================================================== *)

Section CarouselPositions.

Import Store Carousel.

Lemma findIndex_none (A : Type) (p : A -> bool) (l : list A) :
  findIndex p l = (-1)%Z -> forall x, In x l -> p x = false.
Proof.
  induction l as [|y l IH]; simpl; [intros _ x []|].
  destruct (p y) eqn:E; [discriminate|].
  destruct (Z.ltb_spec (findIndex p l) 0) as [Hlt | Hge].
  - intros _ x [<- | Hx]; [exact E|].
    destruct (findIndex_range A p l) as [Hm | Hr]; [|lia].
    apply IH; assumption.
  - intros Hq; lia.
Qed.


Lemma I3_at (l1 l2 : list SavedUrl) (u : SavedUrl) :
  I3 (l1 ++ u :: l2) ->
  hasId (id u) l1 = false /\ hasId (id u) l2 = false.
Proof.
  unfold I3; rewrite map_app; simpl; intros H.
  apply NoDup_remove_2 in H.
  split.
  - destruct (hasId (id u) l1) eqn:E; [|reflexivity].
    exfalso; apply H, in_or_app; left; apply hasId_in; exact E.
  - destruct (hasId (id u) l2) eqn:E; [|reflexivity].
    exfalso; apply H, in_or_app; right; apply hasId_in; exact E.
Qed.

Lemma currentIndex_split (l1 l2 : list SavedUrl) (u a : SavedUrl) :
  hasId (id u) l1 = false -> id a = id u ->
  currentIndex (l1 ++ u :: l2) (Some a) = Z.of_nat (length l1).
Proof.
  intros H1 E; unfold currentIndex; rewrite E.
  apply findIndex_app_stop; [|apply str_eqb_refl].
  apply hasId_false; exact H1.
Qed.

Lemma map_inactive (l : list SavedUrl) :
  activeCount l = 0 -> map (with_isActive false) l = l.
Proof.
  rewrite activeCount_zero; intros H.
  rewrite <- (map_id l) at 2; apply map_ext_in; intros u Hu.
  specialize (H u Hu); destruct u; simpl in *; subst; reflexivity.
Qed.

(** X9: the position the carousel shows is -1 exactly when no record is
    active; with an active record it lies within the collection, and under
    unique ids it is the position of the active record itself. *)
Theorem currentIndex_in_range (urls : list SavedUrl) :
  (activeUrl urls = None -> currentIndex urls (activeUrl urls) = (-1)%Z)
  /\ forall a, activeUrl urls = Some a ->
       (0 <= currentIndex urls (activeUrl urls) < Z.of_nat (length urls))%Z
       /\ (I3 urls ->
           index urls (currentIndex urls (activeUrl urls)) = Some a).
Proof.
  split; [intros ->; reflexivity|].
  intros a Ha; rewrite Ha.
  pose proof (find_some _ _ Ha) as [Hin Hact].
  destruct (In_nth_error _ _ Hin) as [k Hk].
  destruct (nth_error_split _ _ Hk) as (l1 & l2 & -> & Hl).
  split.
  - unfold currentIndex.
    destruct (findIndex_range _ (fun u => str_eqb (id u) (id a))
                (l1 ++ a :: l2)) as [Hm | Hr]; [|exact Hr].
    pose proof (findIndex_none _ _ _ Hm a Hin) as Hf; simpl in Hf.
    rewrite str_eqb_refl in Hf; discriminate Hf.
  - intros H3; destruct (I3_at _ _ _ H3) as [H1 _].
    rewrite (currentIndex_split l1 l2 a a H1 eq_refl), index_of_nat.
    rewrite Hl; exact Hk.
Qed.

Lemma currentIndex_in_range_witness :
  (0 <= currentIndex [Sample.B; Sample.A; Sample.C]
                     (activeUrl [Sample.B; Sample.A; Sample.C]) < 3)%Z
  /\ index [Sample.B; Sample.A; Sample.C]
           (currentIndex [Sample.B; Sample.A; Sample.C]
                         (activeUrl [Sample.B; Sample.A; Sample.C]))
     = Some Sample.A.
Proof.
  destruct (proj2 (currentIndex_in_range [Sample.B; Sample.A; Sample.C])
                  Sample.A eq_refl) as [Hr Hi].
  split; [exact Hr | apply Hi].
  repeat constructor; simpl; intuition discriminate.
Defined.

(** The collection after activating the record at position [k]. *)
Lemma activateIndex_spec (urls : list SavedUrl) (k : nat) (u : SavedUrl) :
  I3 urls -> nth_error urls k = Some u ->
  activeUrl (activateIndex urls k) = Some (with_isActive true u)
  /\ currentIndex (activateIndex urls k) (activeUrl (activateIndex urls k))
     = Z.of_nat k.
Proof.
  intros H3 Hk; unfold activateIndex; rewrite Hk.
  destruct (nth_error_split _ _ Hk) as (l1 & l2 & -> & Hl).
  destruct (I3_at _ _ _ H3) as [H1 H2].
  rewrite (setActiveUrl_split _ _ _ _ eq_refl H1 H2).
  assert (activeUrl (map (with_isActive false) l1
                       ++ with_isActive true u
                       :: map (with_isActive false) l2)
          = Some (with_isActive true u)) as Ha.
  { unfold activeUrl; rewrite find_app_absent; [reflexivity|].
    apply find_inactive, activeCount_inactive. }
  split; [exact Ha|].
  rewrite Ha, (currentIndex_split _ _ (with_isActive true u)
                 (with_isActive true u)); [|  | reflexivity].
  - rewrite length_map, Hl; reflexivity.
  - rewrite <- H1; apply hasId_ids; simpl.
    rewrite map_map; reflexivity.
Qed.

Lemma activateIndex_ids (urls : list SavedUrl) (k : nat) :
  map id (activateIndex urls k) = map id urls.
Proof.
  unfold activateIndex; destruct (nth_error urls k); [|reflexivity].
  apply ids_setActiveUrl.
Qed.

Lemma activateIndex_length (urls : list SavedUrl) (k : nat) :
  length (activateIndex urls k) = length urls.
Proof.
  rewrite <- (length_map id (activateIndex urls k)), activateIndex_ids.
  apply length_map.
Qed.

Lemma activateIndex_I3 (urls : list SavedUrl) (k : nat) :
  I3 urls -> I3 (activateIndex urls k).
Proof. unfold I3; rewrite activateIndex_ids; auto. Qed.

Lemma activateIndex_twice (urls : list SavedUrl) (k j : nat) :
  j < length urls ->
  activateIndex (activateIndex urls k) j = activateIndex urls j.
Proof.
  intros Hj; destruct (nth_error urls j) as [v|] eqn:Hv;
    [|apply nth_error_None in Hv; lia].
  unfold activateIndex at 2 3; rewrite Hv.
  destruct (nth_error urls k) as [u|] eqn:Hu;
    [|unfold activateIndex; rewrite Hv; reflexivity].
  unfold activateIndex, setActiveUrl at 1.
  rewrite nth_error_map, Hv; simpl.
  fold (setActiveUrl (id u) urls).
  apply setActiveUrl_twice.
Qed.

(** A well-formed collection is the one in which its current position was
    activated. *)
Lemma wf_normal (urls : list SavedUrl) (a : SavedUrl) :
  I3 urls -> I2 urls -> activeUrl urls = Some a ->
  exists k, k < length urls
    /\ currentIndex urls (activeUrl urls) = Z.of_nat k
    /\ activateIndex urls k = urls.
Proof.
  intros H3 H2 Ha; rewrite Ha.
  pose proof (find_some _ _ Ha) as [Hin Hact].
  destruct (In_nth_error _ _ Hin) as [k Hk].
  exists k; split; [apply nth_error_Some; congruence|].
  unfold activateIndex; rewrite Hk.
  destruct (nth_error_split _ _ Hk) as (l1 & l2 & -> & Hl).
  destruct (I3_at _ _ _ H3) as [H1 H2'].
  split; [rewrite <- Hl; apply currentIndex_split; auto|].
  rewrite (setActiveUrl_split _ _ _ _ eq_refl H1 H2').
  specialize (H2 ltac:(destruct l1; discriminate)).
  rewrite activeCount_app, activeCount_cons, Hact in H2.
  rewrite !map_inactive by lia.
  destruct a; simpl in *; subst; reflexivity.
Qed.

End CarouselPositions.


(* ================================================================== *)
(** * The carousel: moving through the collection *)
(* ================================================================== *)

Section CarouselMoves.

Import Store Carousel.

Lemma dispatch_activateAt (urls : list SavedUrl) (k : nat) :
  k < length urls ->
  dispatch urls (activateAt urls (Z.of_nat k)) = Ret (activateIndex urls k).
Proof.
  intros Hk; unfold activateAt, activateIndex; rewrite index_of_nat.
  destruct (nth_error urls k) eqn:E; [reflexivity|].
  apply nth_error_None in E; lia.
Qed.

Lemma next_index (k n : nat) :
  2 <= n -> k < n ->
  Z.rem (Z.of_nat k + 1) (Z.of_nat n) = Z.of_nat ((k + 1) mod n).
Proof.
  intros Hn Hk; rewrite Z.rem_mod_nonneg by lia.
  rewrite Nat2Z.inj_mod, Nat2Z.inj_add; reflexivity.
Qed.

Lemma prev_index (k n : nat) :
  2 <= n -> k < n ->
  (if Z.eqb (Z.of_nat k) 0 then Z.of_nat n - 1 else Z.of_nat k - 1)%Z
  = Z.of_nat ((k + (n - 1)) mod n).
Proof.
  intros Hn Hk; destruct k as [|k].
  - simpl; rewrite Nat.mod_small by lia; lia.
  - destruct (Z.eqb_spec (Z.of_nat (S k)) 0); [lia|].
    replace (S k + (n - 1)) with (k + 1 * n) by lia.
    rewrite Nat.Div0.mod_add, Nat.mod_small by lia; lia.
Qed.

Lemma next_at (urls : list SavedUrl) (k : nat) :
  I3 urls -> 2 <= length urls -> k < length urls ->
  next (activateIndex urls k)
  = Ret (activateIndex urls ((k + 1) mod length urls)).
Proof.
  intros H3 Hn Hk.
  destruct (nth_error urls k) as [u|] eqn:Hu;
    [|apply nth_error_None in Hu; lia].
  destruct (activateIndex_spec urls k u H3 Hu) as [_ Hc].
  unfold next, navigateNext, hasMultipleUrls; rewrite Hc.
  rewrite activateIndex_length.
  destruct (Nat.leb_spec 2 (length urls)); [|lia].
  destruct (Z.eqb_spec (Z.of_nat k) (-1)); [lia|]; simpl negb; simpl orb.
  cbv iota; rewrite (next_index k (length urls) Hn Hk).
  assert ((k + 1) mod length urls < length urls) as Hk'
    by (apply Nat.mod_upper_bound; lia).
  rewrite dispatch_activateAt by (rewrite activateIndex_length; exact Hk').
  rewrite activateIndex_twice by exact Hk'; reflexivity.
Qed.

Lemma previous_at (urls : list SavedUrl) (k : nat) :
  I3 urls -> 2 <= length urls -> k < length urls ->
  previous (activateIndex urls k)
  = Ret (activateIndex urls ((k + (length urls - 1)) mod length urls)).
Proof.
  intros H3 Hn Hk.
  destruct (nth_error urls k) as [u|] eqn:Hu;
    [|apply nth_error_None in Hu; lia].
  destruct (activateIndex_spec urls k u H3 Hu) as [_ Hc].
  unfold previous, navigatePrevious, hasMultipleUrls; rewrite Hc.
  rewrite activateIndex_length.
  destruct (Nat.leb_spec 2 (length urls)); [|lia].
  destruct (Z.eqb_spec (Z.of_nat k) (-1)); [lia|]; simpl negb; simpl orb.
  cbv iota; rewrite (prev_index k (length urls) Hn Hk).
  assert ((k + (length urls - 1)) mod length urls < length urls) as Hk'
    by (apply Nat.mod_upper_bound; lia).
  rewrite dispatch_activateAt by (rewrite activateIndex_length; exact Hk').
  rewrite activateIndex_twice by exact Hk'; reflexivity.
Qed.

(** X10: [goTo] with a position outside the collection changes nothing;
    with a position inside a collection with unique ids it makes the record
    at that position the active and the current one. *)
Theorem goTo_spec (urls : list SavedUrl) (k : Z) :
  ((k < 0 \/ Z.of_nat (length urls) <= k)%Z -> goTo urls k = Ret urls)
  /\ ((0 <= k < Z.of_nat (length urls))%Z -> I3 urls ->
      exists u urls',
        index urls k = Some u
        /\ goTo urls k = Ret urls'
        /\ activeUrl urls' = Some (with_isActive true u)
        /\ currentIndex urls' (activeUrl urls') = k).
Proof.
  unfold goTo, navigateToIndex; split.
  - intros H.
    destruct (Z.leb_spec 0 k), (Z.ltb_spec k (Z.of_nat (length urls)));
      try reflexivity; lia.
  - intros H H3.
    destruct (Z.leb_spec 0 k), (Z.ltb_spec k (Z.of_nat (length urls)));
      try lia; simpl.
    rewrite <- (Z2Nat.id k) by lia.
    assert (Z.to_nat k < length urls) as Hk by lia.
    destruct (nth_error urls (Z.to_nat k)) as [u|] eqn:Hu;
      [|apply nth_error_None in Hu; lia].
    exists u, (activateIndex urls (Z.to_nat k)).
    rewrite index_of_nat, (dispatch_activateAt urls _ Hk).
    destruct (activateIndex_spec urls _ u H3 Hu) as [Ha Hc].
    repeat split; auto.
Qed.

Lemma goTo_spec_witness :
  goTo [Sample.A; Sample.B; Sample.C] 3 = Ret [Sample.A; Sample.B; Sample.C]
  /\ goTo [Sample.A; Sample.B; Sample.C] (-1)
     = Ret [Sample.A; Sample.B; Sample.C]
  /\ exists u urls',
       index [Sample.A; Sample.B; Sample.C] 2 = Some u
       /\ goTo [Sample.A; Sample.B; Sample.C] 2 = Ret urls'
       /\ activeUrl urls' = Some (with_isActive true u)
       /\ currentIndex urls' (activeUrl urls') = 2%Z.
Proof.
  split; [|split].
  - apply (proj1 (goTo_spec [Sample.A; Sample.B; Sample.C] 3)).
    right; simpl; lia.
  - apply (proj1 (goTo_spec [Sample.A; Sample.B; Sample.C] (-1))).
    left; lia.
  - apply (proj2 (goTo_spec [Sample.A; Sample.B; Sample.C] 2)).
    + simpl; lia.
    + repeat constructor; simpl; intuition discriminate.
Defined.

(** X11: on a well-formed collection of at least two records, [next()]
    moves the current position from [c] to [(c + 1) mod length] and
    [previous()] to [(c - 1) mod length]. *)
Theorem next_previous_step (urls : list SavedUrl) (a : SavedUrl) :
  I3 urls -> I2 urls -> activeUrl urls = Some a -> 2 <= length urls ->
  exists s1 s2,
    next urls = Ret s1 /\ previous urls = Ret s2
    /\ currentIndex s1 (activeUrl s1)
       = ((currentIndex urls (activeUrl urls) + 1)
            mod Z.of_nat (length urls))%Z
    /\ currentIndex s2 (activeUrl s2)
       = ((currentIndex urls (activeUrl urls) - 1)
            mod Z.of_nat (length urls))%Z.
Proof.
  intros H3 H2 Ha Hn.
  destruct (wf_normal urls a H3 H2 Ha) as (k & Hk & Hc & E).
  rewrite Hc.
  set (n := length urls) in *.
  assert ((k + 1) mod n < n) as Hk1 by (apply Nat.mod_upper_bound; lia).
  assert ((k + (n - 1)) mod n < n) as Hk2
    by (apply Nat.mod_upper_bound; lia).
  exists (activateIndex urls ((k + 1) mod n)),
         (activateIndex urls ((k + (n - 1)) mod n)).
  split; [rewrite <- E at 1; apply next_at; auto|].
  split; [rewrite <- E at 1; apply previous_at; auto|].
  destruct (nth_error urls ((k + 1) mod n)) as [u1|] eqn:Hu1;
    [|apply nth_error_None in Hu1; fold n in Hu1; lia].
  destruct (nth_error urls ((k + (n - 1)) mod n)) as [u2|] eqn:Hu2;
    [|apply nth_error_None in Hu2; fold n in Hu2; lia].
  destruct (activateIndex_spec urls _ u1 H3 Hu1) as [_ ->].
  destruct (activateIndex_spec urls _ u2 H3 Hu2) as [_ ->].
  split.
  - rewrite Nat2Z.inj_mod, Nat2Z.inj_add; reflexivity.
  - rewrite Nat2Z.inj_mod.
    replace (Z.of_nat (k + (n - 1))) with (Z.of_nat k - 1 + 1 * Z.of_nat n)%Z
      by lia.
    apply Z.mod_add; lia.
Qed.

Lemma next_previous_step_witness :
  exists s1 s2,
    next [Sample.B; Sample.C; Sample.A] = Ret s1
    /\ previous [Sample.B; Sample.C; Sample.A] = Ret s2
    /\ currentIndex s1 (activeUrl s1)
       = ((currentIndex [Sample.B; Sample.C; Sample.A]
                        (activeUrl [Sample.B; Sample.C; Sample.A]) + 1)
            mod Z.of_nat (length [Sample.B; Sample.C; Sample.A]))%Z
    /\ currentIndex s2 (activeUrl s2)
       = ((currentIndex [Sample.B; Sample.C; Sample.A]
                        (activeUrl [Sample.B; Sample.C; Sample.A]) - 1)
            mod Z.of_nat (length [Sample.B; Sample.C; Sample.A]))%Z.
Proof.
  apply (next_previous_step [Sample.B; Sample.C; Sample.A] Sample.A).
  - repeat constructor; simpl; intuition discriminate.
  - intros _; reflexivity.
  - reflexivity.
  - simpl; lia.
Defined.

Lemma nav_small (urls : list SavedUrl) :
  length urls < 2 -> next urls = Ret urls /\ previous urls = Ret urls.
Proof.
  intros Hn; unfold next, previous.
  destruct (navigate_single urls (activeUrl urls) Hn) as [-> ->].
  split; reflexivity.
Qed.

(** X12: on a well-formed collection [previous()] undoes [next()] and
    [next()] undoes [previous()]. *)
Theorem next_previous_inverse (urls : list SavedUrl) :
  I3 urls -> I2 urls ->
  (urls' <- next urls ;; previous urls') = Ret urls
  /\ (urls' <- previous urls ;; next urls') = Ret urls.
Proof.
  intros H3 H2.
  destruct (Nat.lt_ge_cases (length urls) 2) as [Hn | Hn].
  { destruct (nav_small urls Hn) as [E1 E2].
    rewrite E1, E2; simpl; rewrite E1, E2; split; reflexivity. }
  destruct (activeUrl urls) as [a|] eqn:Ha.
  2:{ apply (I2_active_iff_nonempty urls H2) in Ha; subst; simpl in Hn; lia. }
  destruct (wf_normal urls a H3 H2 Ha) as (k & Hk & _ & E).
  assert ((k + 1) mod length urls < length urls) as Hk1
    by (apply Nat.mod_upper_bound; lia).
  assert ((k + (length urls - 1)) mod length urls < length urls) as Hk2
    by (apply Nat.mod_upper_bound; lia).
  assert (((k + 1) mod length urls + (length urls - 1)) mod length urls = k)
    as E1.
  { rewrite Nat.Div0.add_mod_idemp_l.
    replace (k + 1 + (length urls - 1)) with (k + 1 * length urls) by lia.
    rewrite Nat.Div0.mod_add; apply Nat.mod_small; exact Hk. }
  assert (((k + (length urls - 1)) mod length urls + 1) mod length urls = k)
    as E2.
  { rewrite Nat.Div0.add_mod_idemp_l.
    replace (k + (length urls - 1) + 1) with (k + 1 * length urls) by lia.
    rewrite Nat.Div0.mod_add; apply Nat.mod_small; exact Hk. }
  split.
  - rewrite <- E at 1.
    rewrite (next_at urls k H3 Hn Hk); cbn [bind].
    rewrite (previous_at urls _ H3 Hn Hk1), E1, E; reflexivity.
  - rewrite <- E at 1.
    rewrite (previous_at urls k H3 Hn Hk); cbn [bind].
    rewrite (next_at urls _ H3 Hn Hk2), E2, E; reflexivity.
Qed.

Lemma next_previous_inverse_witness :
  (urls' <- next [Sample.B; Sample.C; Sample.A] ;; previous urls')
  = Ret [Sample.B; Sample.C; Sample.A]
  /\ (urls' <- previous [Sample.B; Sample.C; Sample.A] ;; next urls')
     = Ret [Sample.B; Sample.C; Sample.A].
Proof.
  apply (next_previous_inverse [Sample.B; Sample.C; Sample.A]).
  - repeat constructor; simpl; intuition discriminate.
  - intros _; reflexivity.
Defined.

Lemma nextTimes_at (urls : list SavedUrl) (j : nat) :
  I3 urls -> 2 <= length urls ->
  forall k, k < length urls ->
  nextTimes j (activateIndex urls k)
  = Ret (activateIndex urls ((k + j) mod length urls)).
Proof.
  intros H3 Hn; induction j as [|j IH]; intros k Hk; simpl.
  - rewrite Nat.add_0_r, Nat.mod_small by exact Hk; reflexivity.
  - rewrite (next_at urls k H3 Hn Hk); cbn [bind].
    rewrite IH by (apply Nat.mod_upper_bound; lia).
    rewrite Nat.Div0.add_mod_idemp_l.
    replace (k + 1 + j) with (k + S j) by lia; reflexivity.
Qed.

(** X13: on a well-formed collection, [next()] as many times as there
    are records gives the collection back, and [j] times [next()] moves the
    current position from [c] to [(c + j) mod length]. *)
Theorem next_cycles (urls : list SavedUrl) :
  I3 urls -> I2 urls ->
  nextTimes (length urls) urls = Ret urls
  /\ (2 <= length urls ->
      forall j, exists s,
        nextTimes j urls = Ret s
        /\ currentIndex s (activeUrl s)
           = ((currentIndex urls (activeUrl urls) + Z.of_nat j)
                mod Z.of_nat (length urls))%Z).
Proof.
  intros H3 H2.
  destruct (Nat.lt_ge_cases (length urls) 2) as [Hn | Hn].
  { split; [|lia].
    destruct (nav_small urls Hn) as [E1 _].
    destruct urls as [|u [|v l]]; [reflexivity | | simpl in Hn; lia].
    cbn [length nextTimes]; rewrite E1; reflexivity. }
  destruct (activeUrl urls) as [a|] eqn:Ha.
  2:{ apply (I2_active_iff_nonempty urls H2) in Ha; subst; simpl in Hn; lia. }
  destruct (wf_normal urls a H3 H2 Ha) as (k & Hk & Hc & E).
  rewrite Ha in Hc; rewrite Hc.
  split.
  - rewrite <- E at 2.
    rewrite (nextTimes_at urls (length urls) H3 Hn k Hk).
    replace (k + length urls) with (k + 1 * length urls) by lia.
    rewrite Nat.Div0.mod_add, Nat.mod_small by exact Hk.
    rewrite E; reflexivity.
  - intros _ j; exists (activateIndex urls ((k + j) mod length urls)).
    split; [rewrite <- E at 1; apply nextTimes_at; auto|].
    assert ((k + j) mod length urls < length urls) as Hk'
      by (apply Nat.mod_upper_bound; lia).
    destruct (nth_error urls ((k + j) mod length urls)) as [u|] eqn:Hu;
      [|apply nth_error_None in Hu; lia].
    destruct (activateIndex_spec urls _ u H3 Hu) as [_ ->].
    rewrite Nat2Z.inj_mod, Nat2Z.inj_add; reflexivity.
Qed.

Lemma next_cycles_witness :
  nextTimes 3 [Sample.B; Sample.C; Sample.A]
  = Ret [Sample.B; Sample.C; Sample.A].
Proof.
  apply (next_cycles [Sample.B; Sample.C; Sample.A]).
  - repeat constructor; simpl; intuition discriminate.
  - intros _; reflexivity.
Defined.

End CarouselMoves.

(* ================================================================== *)
(** * The carousel: what navigation cannot do *)
(* ================================================================== *)

Section CarouselSafety.

Import Store Carousel.

Lemma activateAt_in_range (urls : list SavedUrl) (k : Z) :
  (0 <= k < Z.of_nat (length urls))%Z ->
  exists u, In u urls /\ activateAt urls k = Ret (Activate (id u)).
Proof.
  intros Hk; unfold activateAt.
  rewrite <- (Z2Nat.id k), index_of_nat by lia.
  destruct (nth_error urls (Z.to_nat k)) as [u|] eqn:E.
  - exists u; split; [apply (nth_error_In _ _ E) | reflexivity].
  - apply nth_error_None in E; lia.
Qed.

Lemma currentIndex_bounds (urls : list SavedUrl) (a : option SavedUrl) :
  currentIndex urls a = (-1)%Z
  \/ (0 <= currentIndex urls a < Z.of_nat (length urls))%Z.
Proof.
  unfold currentIndex; destruct a; [apply findIndex_range|].
  left; reflexivity.
Qed.

Lemma navigateNext_target (urls : list SavedUrl) (a : option SavedUrl) :
  presentTarget urls (navigateNext urls a).
Proof.
  unfold navigateNext, hasMultipleUrls.
  destruct (Nat.leb_spec 2 (length urls)); [|left; reflexivity].
  destruct (Z.eqb_spec (currentIndex urls a) (-1)); [left; reflexivity|].
  destruct (currentIndex_bounds urls a) as [Hc | Hc]; [contradiction|].
  right; apply activateAt_in_range.
  apply Z.rem_bound_pos; lia.
Qed.

Lemma navigatePrevious_target (urls : list SavedUrl) (a : option SavedUrl) :
  presentTarget urls (navigatePrevious urls a).
Proof.
  unfold navigatePrevious, hasMultipleUrls.
  destruct (Nat.leb_spec 2 (length urls)); [|left; reflexivity].
  destruct (Z.eqb_spec (currentIndex urls a) (-1)); [left; reflexivity|].
  destruct (currentIndex_bounds urls a) as [Hc | Hc]; [contradiction|].
  right; apply activateAt_in_range.
  destruct (Z.eqb_spec (currentIndex urls a) 0); lia.
Qed.

Lemma navigateToIndex_target (urls : list SavedUrl) (k : Z) :
  presentTarget urls (navigateToIndex urls k).
Proof.
  unfold navigateToIndex.
  destruct (Z.leb_spec 0 k), (Z.ltb_spec k (Z.of_nat (length urls)));
    try (left; reflexivity).
  right; apply activateAt_in_range; lia.
Qed.

Lemma handleTouchEnd_target (ts te : option Z) (urls : list SavedUrl)
      (a : option SavedUrl) :
  presentTarget urls (handleTouchEnd ts te urls a).
Proof.
  unfold handleTouchEnd; destruct (handleTouchEnd_call ts te urls).
  - left; reflexivity.
  - apply navigateNext_target.
  - apply navigatePrevious_target.
Qed.



Lemma dispatch_onlyFlags (urls : list SavedUrl) (r : js nav) :
  presentTarget urls r -> onlyFlags urls (dispatch urls r).
Proof.
  intros [-> | (u & Hu & ->)]; simpl.
  - exists urls; repeat split; auto using I2_I1.
  - exists (setActiveUrl (id u) urls); split; [reflexivity|].
    split.
    + unfold setActiveUrl; rewrite map_map; reflexivity.
    + intros H3 H2.
      destruct (setActiveUrl_inv urls (id u) H3 (hasId_In urls u Hu))
        as [H3' H2'].
      repeat split; auto using I2_I1.
Qed.

(** X15: [next()], [previous()], [goTo] and a swipe return a collection
    with the same records in the same order, [isActive] apart, and keep a
    well-formed collection well formed. *)
Theorem navigation_only_flags (urls : list SavedUrl) (k : Z)
        (st : TouchState) :
  onlyFlags urls (next urls)
  /\ onlyFlags urls (previous urls)
  /\ onlyFlags urls (goTo urls k)
  /\ onlyFlags urls (swipe st urls).
Proof.
  repeat split; apply dispatch_onlyFlags.
  - apply navigateNext_target.
  - apply navigatePrevious_target.
  - apply navigateToIndex_target.
  - apply handleTouchEnd_target.
Qed.

Lemma navigation_only_flags_witness :
  exists urls',
    next [Sample.B; Sample.C; Sample.A] = Ret urls'
    /\ I1 urls' /\ I2 urls' /\ I3 urls'.
Proof.
  destruct (proj1 (navigation_only_flags [Sample.B; Sample.C; Sample.A] 0
                     initialTouch)) as (urls' & Hr & _ & Hwf).
  exists urls'; split; [exact Hr|].
  apply Hwf.
  - repeat constructor; simpl; intuition discriminate.
  - intros _; reflexivity.
Defined.

(** X16: the touch handler calls [navigateNext] only for a recorded
    gesture over more than the threshold to the left, [navigatePrevious]
    only for one over more than the threshold to the right, and neither
    with fewer than two records. *)
Theorem gesture_sound (ts te : option Z) (urls : list SavedUrl) :
  (handleTouchEnd_call ts te urls = CallNext ->
   exists s e, ts = Some s /\ te = Some e
     /\ 2 <= length urls
     /\ (minSwipeDistance < displacement s e)%Z)
  /\ (handleTouchEnd_call ts te urls = CallPrevious ->
      exists s e, ts = Some s /\ te = Some e
        /\ 2 <= length urls
        /\ (displacement s e < - minSwipeDistance)%Z)
  /\ (length urls < 2 -> handleTouchEnd_call ts te urls = CallNone).
Proof.
  unfold handleTouchEnd_call, hasMultipleUrls, displacement.
  destruct (Nat.leb_spec 2 (length urls)) as [Hn | Hn].
  2:{ cbn [negb]; rewrite !orb_true_r.
      split; [discriminate|]. split; [discriminate | reflexivity]. }
  cbn [negb]; rewrite orb_false_r.
  split; [|split; [|intros; lia]].
  - destruct ts as [s|]; [|discriminate].
    destruct te as [e|]; [|cbn [falsy_num]; rewrite orb_true_r; discriminate].
    cbn [falsy_num num].
    destruct (Z.eqb s 0); [discriminate|].
    destruct (Z.eqb e 0); [discriminate|].
    cbn [orb].
    destruct (Z.ltb_spec minSwipeDistance (s - e)).
    + intros _; exists s, e; auto.
    + destruct (Z.ltb (s - e) (- minSwipeDistance)); discriminate.
  - destruct ts as [s|]; [|discriminate].
    destruct te as [e|]; [|cbn [falsy_num]; rewrite orb_true_r; discriminate].
    cbn [falsy_num num].
    destruct (Z.eqb s 0); [discriminate|].
    destruct (Z.eqb e 0); [discriminate|].
    cbn [orb].
    destruct (Z.ltb minSwipeDistance (s - e)); [discriminate|].
    destruct (Z.ltb_spec (s - e) (- minSwipeDistance)); [|discriminate].
    intros _; exists s, e; auto.
Qed.

Lemma gesture_sound_witness :
  exists s e, Some 200%Z = Some s /\ Some 120%Z = Some e
    /\ 2 <= length [Sample.A; Sample.B]
    /\ (minSwipeDistance < displacement s e)%Z.
Proof.
  apply (gesture_sound (Some 200%Z) (Some 120%Z) [Sample.A; Sample.B]).
  reflexivity.
Defined.

Lemma moves_end (xs : list Z) (y : Z) (st : TouchState) :
  ts_start (moves (xs ++ [y]) st) = ts_start st
  /\ ts_end (moves (xs ++ [y]) st) = Some y.
Proof.
  revert st; induction xs as [|x xs IH]; intros st; simpl.
  - split; reflexivity.
  - destruct (IH (handleTouchMove x st)) as [-> ->]; split; reflexivity.
Qed.

(** X17: a touch that starts and ends without a [touchmove] calls
    nothing, whatever the coordinates left by earlier gestures; a gesture
    with moves is judged by its start and its last move alone. *)
Theorem touch_gesture (st : TouchState) (x : Z) (urls : list SavedUrl) :
  handleTouchEnd_call (ts_start (handleTouchStart x st))
                      (ts_end (handleTouchStart x st)) urls = CallNone
  /\ swipe (handleTouchStart x st) urls = Ret urls
  /\ forall xs y,
       let st' := moves (xs ++ [y]) (handleTouchStart x st) in
       handleTouchEnd_call (ts_start st') (ts_end st') urls
       = handleTouchEnd_call (Some x) (Some y) urls.
Proof.
  split; [|split].
  - unfold handleTouchEnd_call; simpl; rewrite orb_true_r; reflexivity.
  - unfold swipe, handleTouchEnd, handleTouchEnd_call; simpl.
    rewrite orb_true_r; reflexivity.
  - intros xs y st'; subst st'.
    destruct (moves_end xs y (handleTouchStart x st)) as [-> ->].
    reflexivity.
Qed.

End CarouselSafety.

(* ================================================================== *)
(** * The form and the active record *)
(* ================================================================== *)

Section FormAndActive.

Import Store Form.

(** X18: a form whose URL and title are not blank is never rejected: in
    add mode the collection gains one record at its end, with the
    normalized URL and the title as typed; in edit mode the record being
    edited is updated in place; either way the form is emptied. *)
Theorem submit_filled_accepted (newId : jsstring) (now : Z)
        (urls : list SavedUrl) (st : FormState) :
  trim (form_url (formData st)) <> [] ->
  trim (form_title (formData st)) <> [] ->
  let d := {| form_url := normalizeUrl (form_url (formData st));
              form_title := form_title (formData st) |} in
  exists st' t,
    isValidationError t = false
    /\ formData st' = emptyForm
    /\ (editingId st = None ->
        handleSubmit newId now urls st
        = (urls ++ [newUrl urls newId now d], st', t)
        /\ isAdding st' = false)
    /\ (forall e, editingId st = Some e -> e <> [] ->
        handleSubmit newId now urls st = (updateUrl e d urls, st', t)
        /\ editingId st' = None).
Proof.
  intros Hu Ht d.
  exists (snd (fst (handleSubmit newId now urls st))),
         (snd (handleSubmit newId now urls st)).
  unfold handleSubmit.
  apply truthy_str_true in Hu, Ht; rewrite Hu, Ht; cbn [negb orb].
  destruct (editingId st) as [e|] eqn:Ee; [destruct (truthy_str e) eqn:Te|];
    (split; [reflexivity|]); (split; [reflexivity|]); split.
  - intros Hx; discriminate Hx.
  - intros e0 [= <-] _; split; reflexivity.
  - intros Hx; discriminate Hx.
  - intros e0 [= <-] He0; apply truthy_str_true in He0; congruence.
  - intros _; split; reflexivity.
  - intros e0 Hx; discriminate Hx.
Qed.

Lemma submit_filled_accepted_witness :
  exists st' t,
    isValidationError t = false
    /\ formData st' = emptyForm
    /\ handleSubmit (lit "n") 7 [Sample.A]
         (mkFormState true None (Sample.form " b.example " " B "))
       = ([Sample.A; Sample.saved "n" "https://b.example" " B " 7 false],
          st', t).
Proof.
  destruct (submit_filled_accepted (lit "n") 7 [Sample.A]
              (mkFormState true None (Sample.form " b.example " " B "))
              ltac:(vm_compute; discriminate) ltac:(vm_compute; discriminate))
    as (st' & t & Hv & Hf & Hadd & _).
  exists st', t; repeat split; auto.
  apply (proj1 (Hadd eq_refl)).
Defined.

(** X19: adding a record to a collection with an active record, and
    updating a record, do not change which record is active: after [add]
    the active record is the same record, after [update] it is the same
    record with the update applied to it. *)
Theorem add_update_keep_active (urls : list SavedUrl) (a : SavedUrl)
        (newId i : jsstring) (now : Z) (d : UrlFormData) :
  activeUrl urls = Some a ->
  activeUrl (addUrl urls newId now d urls) = Some a
  /\ activeUrl (updateUrl i d urls)
     = Some (if str_eqb (id a) i then with_form d a else a).
Proof.
  unfold activeUrl, addUrl, updateUrl; intros Ha; split.
  - induction urls as [|u l IH]; simpl in *; [discriminate|].
    destruct (isActive u); [exact Ha|].
    clear IH; revert Ha; generalize (newUrl (u :: l) newId now d).
    induction l as [|v l IH]; simpl; [discriminate|].
    destruct (isActive v); auto.
  - induction urls as [|u l IH]; simpl in *; [discriminate|].
    destruct (isActive u) eqn:E.
    + injection Ha as <-.
      destruct (str_eqb (id u) i); simpl; rewrite E; reflexivity.
    + destruct (str_eqb (id u) i); simpl; rewrite E; auto.
Qed.

Lemma add_update_keep_active_witness :
  activeUrl (addUrl [Sample.B; Sample.A] (lit "n") 9
                    (Sample.form "https://n.example" "N")
                    [Sample.B; Sample.A]) = Some Sample.A
  /\ activeUrl (updateUrl (lit "a") (Sample.form "https://n.example" "N")
                          [Sample.B; Sample.A])
     = Some (if str_eqb (id Sample.A) (lit "a")
             then with_form (Sample.form "https://n.example" "N") Sample.A
             else Sample.A).
Proof.
  apply (add_update_keep_active [Sample.B; Sample.A] Sample.A).
  reflexivity.
Defined.

End FormAndActive.
